(** * Akima interpolation ([akima.py]): model and verification

    The Python function [interpolate] of [akima.py] is embedded as a function
    over exact rationals.  A float64 array is a list of [Q]; every arithmetic
    operation is the exact one, so the statements below are statements about
    the algorithm "under exact arithmetic".  Exceptions are values of an error
    monad, integer indices are [Z] with Python's wrap-around of negative
    indices, and numpy's element-wise operations are written as operations on
    lists.

    Exact arithmetic has neither rounding nor underflow.  The one place where
    that changes which branch of the computation is taken is line 241, whose
    divisor [dx ** 2] binary64 rounds to zero for abscissas closer than
    [2^-537]; module [F64] reads the function a second time with the
    operations of binary64, and the statements on that divisor are made
    there. *)

From Stdlib Require Import QArith Qabs Qminmax Qpower Qfield Lqa Lia ZArith String.
From Stdlib Require PrimFloat.
From stdpp Require Import base list strings gmap.

Local Open Scope Q_scope.

(** ** Exceptions and the error monad *)

Inductive exn : Type :=
| NotImplementedError (msg : string)
| ValueError (msg : string)
| IndexError
| FloatingPointError.

Inductive result (A : Type) : Type :=
| Ok (a : A)
| Raise (e : exn).

Arguments Ok {A} a.
Arguments Raise {A} e.

#[global] Instance result_ret : MRet result := λ A a, Ok a.
#[global] Instance result_bind : MBind result := λ A B f r,
  match r with
  | Ok a => f a
  | Raise e => Raise e
  end.

(** ** numpy arrays and the primitives the source uses *)

(** An array as [numpy.array(_, dtype=float64)] builds it: a shape and the
    elements in row-major order. *)
Record ndarray : Type := { shape : list nat; data : list Q }.

Definition ndim (a : ndarray) : nat := length (shape a).

(** A one-dimensional array holding the elements of [l]. *)
Definition array1 (l : list Q) : ndarray := {| shape := [length l]; data := l |}.

(** [a < b] on floats, as a boolean. *)
Definition Qlt_bool (a b : Q) : bool :=
  (Qnum a * QDen b <? Qnum b * QDen a)%Z.

(** [a[k]] for an integer [k]: negative indices count from the end, and an
    index out of range raises [IndexError]. *)
Definition getitem {A} (a : list A) (k : Z) : result A :=
  let i := if (k <? 0)%Z then (k + Z.of_nat (length a))%Z else k in
  if (i <? 0)%Z then Raise IndexError
  else match a !! Z.to_nat i with
       | Some v => Ok v
       | None => Raise IndexError
       end.

(** [a[ks]] for an integer index array [ks]. *)
Definition take_idx {A} (a : list A) (ks : list Z) : result (list A) :=
  mapM (getitem a) ks.

(** [a[k] = v]. *)
Definition setitem {A} (a : list A) (k : Z) (v : A) : result (list A) :=
  let i := if (k <? 0)%Z then (k + Z.of_nat (length a))%Z else k in
  if ((i <? 0) || (Z.of_nat (length a) <=? i))%Z then Raise IndexError
  else Ok (<[Z.to_nat i := v]> a).

(** [a[ks] = vs] for an index array [ks], one store after the other. *)
Fixpoint setitems {A} (a : list A) (kvs : list (Z * A)) : result (list A) :=
  match kvs with
  | [] => Ok a
  | (k, v) :: rest => a' ← setitem a k v; setitems a' rest
  end.

(** [a[lo:hi]] for [0 <= lo]; a slice never raises. *)
Definition slice {A} (a : list A) (lo hi : nat) : list A :=
  take (hi - lo) (drop lo a).

(** [numpy.diff(a)], that is [a[1:] - a[:-1]]. *)
Definition diff (a : list Q) : list Q := zip_with Qminus (drop 1 a) a.

(** Element-wise operations.  Wherever the source combines two arrays they
    have the same length (see the [length] lemmas below), so that numpy
    neither broadcasts nor raises. *)
Definition vadd : list Q → list Q → list Q := zip_with Qplus.
Definition vsub : list Q → list Q → list Q := zip_with Qminus.
Definition vmul : list Q → list Q → list Q := zip_with Qmult.
Definition scale (k : Q) : list Q → list Q := fmap (Qmult k).

(** A single division.  At a zero divisor numpy warns and carries on with
    [inf] or [nan], which the rationals do not have: the model stops there
    with [FloatingPointError] (what numpy raises under
    [seterr(all='raise')]). *)
Definition div1 (p : Q * Q) : result Q :=
  if Qeq_bool p.2 0 then Raise FloatingPointError else Ok (p.1 / p.2).

(** Element-wise [a / b]. *)
Definition vdiv (a b : list Q) : result (list Q) := mapM div1 (zip a b).

(** The builtin [any] over a boolean array. *)
Definition any (mask : list bool) : bool := existsb id mask.

(** [numpy.max(a)]: the reduction of [a] by [maximum]; an empty array has no
    maximum. *)
Definition amax (a : list Q) : result Q :=
  match a with
  | [] => Raise (ValueError "zero-size array to reduction operation maximum which has no identity")
  | v :: rest => Ok (foldl Qmax v rest)
  end.

(** [numpy.nonzero(mask)[0]]: the positions of the true entries, ascending. *)
Fixpoint nonzero_from (k : Z) (mask : list bool) : list Z :=
  match mask with
  | [] => []
  | t :: rest =>
      if t then k :: nonzero_from (k + 1)%Z rest else nonzero_from (k + 1)%Z rest
  end.

Definition nonzero (mask : list bool) : list Z := nonzero_from 0%Z mask.

(** [numpy.digitize(xi, bins)] with [right=False] is a library call: it
    classifies [bins], then searches.  For the classification leading
    repetitions are skipped, the first strict step decides between increasing
    (1) and decreasing (-1), and every later step has to agree (0 otherwise). *)
Fixpoint all_steps (ok : Q → Q → bool) (a : list Q) : bool :=
  match a with
  | u :: (v :: _) as rest => ok u v && all_steps ok rest
  | _ => true
  end.

Fixpoint monotonicity (a : list Q) : Z :=
  match a with
  | u :: (v :: _) as rest =>
      if Qeq_bool u v then monotonicity rest
      else if Qlt_bool u v then (if all_steps Qle_bool rest then 1 else 0)%Z
      else (if all_steps (λ p q, Qle_bool q p) rest then -1 else 0)%Z
  | _ => 1%Z
  end.

(** [searchsorted(bins, q, side='right')] on increasing [bins]: the number of
    leading bins that are [<= q], so that [bins[i-1] <= q < bins[i]]. *)
Fixpoint searchsorted_right (bins : list Q) (q : Q) : nat :=
  match bins with
  | [] => 0
  | v :: rest => if Qle_bool v q then S (searchsorted_right rest q) else 0
  end.

Definition digitize (xi bins : list Q) : result (list Z) :=
  let mono := monotonicity bins in
  if (mono =? 0)%Z then
    Raise (ValueError "bins must be monotonically increasing or decreasing")
  else if (mono =? -1)%Z then
    Ok ((λ q, Z.of_nat (length bins - searchsorted_right (reverse bins) q)) <$> xi)
  else
    Ok ((λ q, Z.of_nat (searchsorted_right bins q)) <$> xi).

(** ** The function [interpolate] *)

Definition eps : Q := 1 # 1000000000.

(** Lines 206-221: the checks on the one-dimensional arrays; the result is
    [dx]. *)
Definition validate (n ny : nat) (x xi : list Q) : result (list Q) :=
  if (n <? 3)%nat then Raise (ValueError "array too small")
  else if negb (n =? ny)%nat then
    Raise (ValueError "size of x-array must match data shape")
  else
    let dx := diff x in
    if any ((λ v, Qle_bool v 0) <$> dx) then Raise (ValueError "x-axis not valid")
    else
      x_first ← getitem x 0;
      if any ((λ q, Qlt_bool q x_first) <$> xi) then
        Raise (ValueError "interpolation x-axis out of bounds")
      else
        x_last ← getitem x (-1);
        if any ((λ q, Qlt_bool x_last q) <$> xi) then
          Raise (ValueError "interpolation x-axis out of bounds")
        else Ok dx.

(** Lines 223-229: the secant slopes [m] and their extension [m1]. *)
Definition slopes (n : nat) (y dx : list Q) : result (list Q * list Q) :=
  m ← vdiv (diff y) dx;
  m_0 ← getitem m 0;
  m_1 ← getitem m 1;
  let mm := 2 * m_0 - m_1 in
  let mmm := 2 * mm - m_0 in
  m_n2 ← getitem m (Z.of_nat n - 2);
  m_n3 ← getitem m (Z.of_nat n - 3);
  let mp := 2 * m_n2 - m_n3 in
  let mpp := 2 * mp - m_n2 in
  Ok (m, [mmm] ++ [mm] ++ m ++ [mp] ++ [mpp]).

(** Lines 231-234: the weights. *)
Definition weights (n : nat) (m1 : list Q) : list Q * list Q * list Q :=
  let dm := Qabs <$> diff m1 in
  let f1 := slice dm 2 (n + 2) in
  let f2 := slice dm 0 n in
  (f1, f2, vadd f1 f2).

(** Lines 236-239: the derivatives [b].  In the source [b] is a view of
    [m1[1:n+1]], so the store into [b[ids]] also changes [m1]; the right-hand
    side is evaluated in full before the store and [m1] is not read again,
    and [m] is a copy that the store does not reach. *)
Definition derivatives (n : nat) (m1 : list Q) : result (list Q) :=
  let '(f1, f2, f12) := weights n m1 in
  top ← amax f12;
  let ids := nonzero ((λ w, Qlt_bool (eps * top) w) <$> f12) in
  let b := slice m1 1 (n + 1) in
  f1_ids ← take_idx f1 ids;
  m1_lo ← take_idx m1 ((λ k, k + 1)%Z <$> ids);
  f2_ids ← take_idx f2 ids;
  m1_hi ← take_idx m1 ((λ k, k + 2)%Z <$> ids);
  f12_ids ← take_idx f12 ids;
  rhs ← vdiv (vadd (vmul f1_ids m1_lo) (vmul f2_ids m1_hi)) f12_ids;
  setitems b (zip ids rhs).

(** Lines 240-241: the coefficients [c] and [d].  Over the rationals the
    divisor [dx ** 2] is zero only where [dx] is, which the check of line 215
    excludes.  In binary64 it is rounded to zero for a spacing below [2^-537]
    (about 1.5e-162) and [d] is then [inf] or [nan]: [F64.coefficients] and
    [zero_divisor_on_linear_data].  What follows says of [d] what exact
    arithmetic gives. *)
Definition coefficients (n : nat) (m b dx : list Q) : result (list Q * list Q) :=
  c ← vdiv (vsub (vsub (scale 3 m) (scale 2 (slice b 0 (n - 1)))) (slice b 1 n)) dx;
  d ← vdiv (vsub (vadd (slice b 0 (n - 1)) (slice b 1 n)) (scale 2 m))
           ((λ v, v ^ 2) <$> dx);
  Ok (c, d).

(** Lines 243-248: the segment of each query and Horner's scheme. *)
Definition evaluate (n : nat) (x y b c d xi : list Q) : result (list Q) :=
  bins ← digitize xi x;
  let bins := (λ k, Z.min k (Z.of_nat n - 1) - 1)%Z <$> bins in
  let bb := slice bins 0 (length xi) in
  x_bb ← take_idx x bb;
  let wj := vsub xi x_bb in
  d_bb ← take_idx d bb;
  c_bb ← take_idx c bb;
  b_bb ← take_idx b bb;
  y_bb ← take_idx y bb;
  Ok (vadd (vmul (vadd (vmul (vadd (vmul wj d_bb) c_bb) wj) b_bb) wj) y_bb).

(** What lines 223-241 leave behind for the evaluation. *)
Record spline : Type := Spline {
  sp_m : list Q;   (* secant slopes, [m] *)
  sp_m1 : list Q;  (* extended slopes, [m1] before the store into [b] *)
  sp_b : list Q;   (* derivatives, [b] *)
  sp_c : list Q;
  sp_d : list Q
}.

Definition fit (n : nat) (y dx : list Q) : result spline :=
  '(m, m1) ← slopes n y dx;
  b ← derivatives n m1;
  '(c, d) ← coefficients n m b dx;
  Ok (Spline m m1 b c d).

(** Lines 206-248 on one-dimensional arrays. *)
Definition interpolate1 (n ny : nat) (x y xi : list Q) : result (list Q) :=
  dx ← validate n ny x xi;
  s ← fit n y dx;
  evaluate n x y (sp_b s) (sp_c s) (sp_d s) xi.

(** [a.shape[k]]. *)
Definition shape_at (a : ndarray) (k : Z) : result nat := getitem (shape a) k.

Definition interpolate (x y x_new : ndarray) (axis : Z) (out : option ndarray)
  : result (list Q) :=
  let xi := x_new in
  if negb (axis =? -1)%Z || bool_decide (out ≠ None) || negb (ndim y =? 1)%nat then
    Raise (NotImplementedError "implemented in C extension module")
  else if negb (ndim x =? 1)%nat || negb (ndim xi =? 1)%nat then
    Raise (ValueError "x-arrays must be one dimensional")
  else
    n ← shape_at x 0;
    ny ← shape_at y axis;
    interpolate1 n ny (data x) (data y) (data xi).

(** The call [interpolate(x, y, x_new)] on flat sequences, with the default
    [axis] and [out]. *)
Definition interp (x y x_new : list Q) : result (list Q) :=
  interpolate (array1 x) (array1 y) (array1 x_new) (-1) None.

(** ** Well-formed inputs *)

#[global] Instance Q_inhabited : Inhabited Q := populate 0.

(** [x] is strictly increasing. *)
Definition increasing (x : list Q) : Prop :=
  ∀ i u v, x !! i = Some u → x !! S i = Some v → u < v.

(** The preconditions on the samples: at least three of them, as many
    ordinates as abscissas, abscissas strictly increasing. *)
Record valid (x y : list Q) : Prop := Valid {
  valid_size : (3 ≤ length x)%nat;
  valid_length : length y = length x;
  valid_increasing : increasing x
}.

(** [q] lies between the first and the last abscissa. *)
Definition in_domain (x : list Q) (q : Q) : Prop :=
  ∃ lo hi, x !! 0%nat = Some lo ∧ last x = Some hi ∧ lo <= q ∧ q <= hi.

(** The cubic of a segment and its derivative. *)
Definition cubic (y b c d t : Q) : Q := y + b * t + c * t ^ 2 + d * t ^ 3.
Definition cubic' (b c d t : Q) : Q := b + 2 * c * t + 3 * d * t ^ 2.

(** ** The stages in closed form *)

(** [dm[j]] and [f12[i]] in terms of the extended slopes. *)
Definition gap (m1 : list Q) (j : nat) : Q := Qabs (m1 !!! S j - m1 !!! j).
Definition weight (m1 : list Q) (i : nat) : Q := gap m1 (i + 2) + gap m1 i.

(** [m1] as line 229 assembles it from [m]. *)
Definition extended (n : nat) (m : list Q) : list Q :=
  let mm := 2 * m !!! 0%nat - m !!! 1%nat in
  let mmm := 2 * mm - m !!! 0%nat in
  let mp := 2 * m !!! (n - 2)%nat - m !!! (n - 3)%nat in
  let mpp := 2 * mp - m !!! (n - 2)%nat in
  [mmm; mm] ++ m ++ [mp; mpp].

(** What lines 223-241 establish about the spline of valid samples; [top] is
    [numpy.max(f12)]. *)
Record fitted (x y : list Q) (s : spline) (top : Q) : Prop := Fitted {
  fitted_m_length : length (sp_m s) = (length x - 1)%nat;
  fitted_m : ∀ i, (i < length x - 1)%nat →
    sp_m s !!! i = (y !!! S i - y !!! i) / (x !!! S i - x !!! i);
  fitted_m1 : sp_m1 s = extended (length x) (sp_m s);
  fitted_b_length : length (sp_b s) = length x;
  fitted_top_attained : ∃ j, (j < length x)%nat ∧ top = weight (sp_m1 s) j;
  fitted_top_bound : ∀ j, (j < length x)%nat → weight (sp_m1 s) j <= top;
  fitted_b_weighted : ∀ i, (i < length x)%nat → eps * top < weight (sp_m1 s) i →
    sp_b s !!! i
    = (gap (sp_m1 s) (i + 2) * sp_m1 s !!! (i + 1)%nat
       + gap (sp_m1 s) i * sp_m1 s !!! (i + 2)%nat) / weight (sp_m1 s) i;
  fitted_b_default : ∀ i, (i < length x)%nat → ¬ eps * top < weight (sp_m1 s) i →
    sp_b s !!! i = sp_m1 s !!! (i + 1)%nat;
  fitted_c_length : length (sp_c s) = (length x - 1)%nat;
  fitted_d_length : length (sp_d s) = (length x - 1)%nat;
  fitted_c : ∀ i, (i < length x - 1)%nat →
    sp_c s !!! i
    = (3 * sp_m s !!! i - 2 * sp_b s !!! i - sp_b s !!! S i) / (x !!! S i - x !!! i);
  fitted_d : ∀ i, (i < length x - 1)%nat →
    sp_d s !!! i
    = (sp_b s !!! i + sp_b s !!! S i - 2 * sp_m s !!! i) / (x !!! S i - x !!! i) ^ 2
}.

(** The segment index that lines 243-245 compute for the query [q]. *)
Definition segment (x : list Q) (q : Q) : Z :=
  (Z.min (Z.of_nat (searchsorted_right x q)) (Z.of_nat (length x) - 1) - 1)%Z.

(** The value that line 248 returns for the query [q]. *)
Definition horner (x y b c d : list Q) (q : Q) : Q :=
  let k := Z.to_nat (segment x q) in
  let wj := q - x !!! k in
  ((wj * d !!! k + c !!! k) * wj + b !!! k) * wj + y !!! k.

(** The preconditions as booleans, for concrete inputs. *)
Definition validb (x y : list Q) : bool :=
  (3 <=? length x)%nat && (length y =? length x)%nat
  && negb (any ((λ v, Qle_bool v 0) <$> diff x)).

Definition in_domainb (x : list Q) (q : Q) : bool :=
  match x !! 0%nat, last x with
  | Some lo, Some hi => Qle_bool lo q && Qle_bool q hi
  | _, _ => false
  end.

(** ** The statements of the claims *)

(** The weighted value that line 239 stores at point [i], written with
    [f1 = dm[i+2]] and [f2 = dm[i]]. *)
Definition weighted (m1 : list Q) (i : nat) : Q :=
  let f1 := Qabs (m1 !!! (i + 3)%nat - m1 !!! (i + 2)%nat) in
  let f2 := Qabs (m1 !!! (i + 1)%nat - m1 !!! i) in
  (f1 * m1 !!! (i + 1)%nat + f2 * m1 !!! (i + 2)%nat) / (f1 + f2).

(** [top] is the maximum of the [n] combined weights [f1 + f2]. *)
Definition max_weight (n : nat) (m1 : list Q) (top : Q) : Prop :=
  (∃ j, (j < n)%nat ∧
        top = Qabs (m1 !!! (j + 3)%nat - m1 !!! (j + 2)%nat)
              + Qabs (m1 !!! (j + 1)%nat - m1 !!! j)) ∧
  ∀ j, (j < n)%nat →
       Qabs (m1 !!! (j + 3)%nat - m1 !!! (j + 2)%nat)
       + Qabs (m1 !!! (j + 1)%nat - m1 !!! j) <= top.

(** The derivative rule of lines 223-239 for the samples [x], [y]: the fit
    succeeds with secant slopes [m], extended slopes [m1] of length [n + 3]
    and derivatives [b] of length [n], where [b[i]] is the weighted value at
    the points whose weight exceeds [eps] times the maximum weight, and
    [m1[i+1]] at the others. *)
Definition derivative_rule (x y : list Q) : Prop :=
  let n := length x in
  ∃ s top, fit n y (diff x) = Ok s ∧
    let m := sp_m s in
    let m1 := sp_m1 s in
    let b := sp_b s in
    (length m = (n - 1)%nat ∧
     ∀ i, (i < n - 1)%nat → m !!! i = (y !!! S i - y !!! i) / (x !!! S i - x !!! i)) ∧
    (length m1 = (n + 3)%nat ∧
     m1 = [2 * (2 * m !!! 0%nat - m !!! 1%nat) - m !!! 0%nat;
           2 * m !!! 0%nat - m !!! 1%nat]
          ++ m ++
          [2 * m !!! (n - 2)%nat - m !!! (n - 3)%nat;
           2 * (2 * m !!! (n - 2)%nat - m !!! (n - 3)%nat) - m !!! (n - 2)%nat]) ∧
    max_weight n m1 top ∧
    length b = n ∧
    ∀ i, (i < n)%nat →
      let f1 := Qabs (m1 !!! (i + 3)%nat - m1 !!! (i + 2)%nat) in
      let f2 := Qabs (m1 !!! (i + 1)%nat - m1 !!! i) in
      (eps * top < f1 + f2 → b !!! i = weighted m1 i) ∧
      (¬ eps * top < f1 + f2 → b !!! i = m1 !!! (i + 1)%nat).

(** The coefficient rule of lines 240-241 and the interpolation conditions of
    the cubic of each segment. *)
Definition coefficient_rule (x y : list Q) : Prop :=
  let n := length x in
  ∃ s, fit n y (diff x) = Ok s ∧
    length (sp_c s) = (n - 1)%nat ∧ length (sp_d s) = (n - 1)%nat ∧
    ∀ i, (i < n - 1)%nat →
      let dx := x !!! S i - x !!! i in
      let m_i := sp_m s !!! i in
      let b_i := sp_b s !!! i in
      let b_i1 := sp_b s !!! S i in
      let c_i := sp_c s !!! i in
      let d_i := sp_d s !!! i in
      c_i = (3 * m_i - 2 * b_i - b_i1) / dx ∧
      d_i = (b_i + b_i1 - 2 * m_i) / dx ^ 2 ∧
      cubic (y !!! i) b_i c_i d_i 0 == y !!! i ∧
      cubic (y !!! i) b_i c_i d_i dx == y !!! S i ∧
      cubic' b_i c_i d_i 0 == b_i ∧
      cubic' b_i c_i d_i dx == b_i1.

(** [i] is the largest index with [x[i] <= q]. *)
Definition largest_le (x : list Q) (q : Q) (i : nat) : Prop :=
  (i < length x)%nat ∧ x !!! i <= q ∧
  ∀ j, (j < length x)%nat → x !!! j <= q → (j ≤ i)%nat.

(** The preconditions on a call [interpolate(x, y, x_new)] with flat
    sequences. *)
Definition preconditions (x y xi : list Q) : Prop :=
  valid x y ∧ Forall (in_domain x) xi.

(** C9 as the specification states it: an input that is not one-dimensional
    is rejected with the same kind of error as the other checks. *)
Definition shape_error_is_value_error : Prop :=
  ∀ x y xi : ndarray,
    ndim x ≠ 1%nat ∨ ndim y ≠ 1%nat ∨ ndim xi ≠ 1%nat →
    ∃ msg, interpolate x y xi (-1) None = Raise (ValueError msg).

(** [y] is strictly decreasing. *)
Definition decreasing (y : list Q) : Prop :=
  ∀ i u v, y !! i = Some u → y !! S i = Some v → v < u.

(** C8 as the specification states it, with the tolerance [tol]: on strictly
    monotonic ordinates the value at a query strictly between two neighbouring
    knots stays within [tol] of the range of the two ordinates. *)
Definition no_overshoot (tol : Q) : Prop :=
  ∀ (x y : list Q) (i : nat) (q v : Q),
    valid x y → increasing y ∨ decreasing y →
    (S i < length x)%nat → x !!! i < q → q < x !!! S i →
    interp x y [q] = Ok [v] →
    Qmin (y !!! i) (y !!! S i) - tol <= v ∧ v <= Qmax (y !!! i) (y !!! S i) + tol.

(** The least spacing of the abscissas whose square binary64 does not round
    to zero: [2^-537], whose square [2^-1074] is the least positive binary64
    number. *)
Definition min_spacing : Q := 1 # (2 ^ 537).


(** ** Notions for the further properties *)

(** The secant slope of segment [i], [m[i]]. *)
Definition slope (x y : list Q) (i : nat) : Q :=
  (y !!! S i - y !!! i) / (x !!! S i - x !!! i).

(** The shape of an array accounts for its elements. *)
Definition well_formed (a : ndarray) : Prop :=
  length (data a) = foldr Nat.mul 1%nat (shape a).

(** The call is outside what the Python implementation supports (line 198). *)
Definition unsupported (y : ndarray) (axis : Z) (out : option ndarray) : Prop :=
  axis ≠ (-1)%Z ∨ out ≠ None ∨ ndim y ≠ 1%nat.

(** The call passes every check of lines 202-221. *)
Definition accepted (x y xi : ndarray) : Prop :=
  ndim x = 1%nat ∧ ndim xi = 1%nat ∧ preconditions (data x) (data y) (data xi).

(** ** Loading the module (lines 131-133 and 251-267) *)

(** What a name of the module is bound to: the version string, the function
    defined on line 146, or the function of the [_akima] extension, imported
    from the package ([from ._akima]) or from the path ([from _akima]). *)
Inductive object : Type :=
| Version
| PythonInterpolate
| ExtensionInterpolate (from_package : bool).

#[global] Instance object_eq_dec : EqDecision object.
Proof. solve_decision. Defined.

(** The module after loading: the bindings of its namespace, the list
    [__all__] and the warnings issued. *)
Record module : Type := Module_ {
  namespace : gmap string object;
  all_names : list string;
  warnings : list string
}.

(** The body of the module from line 131 on.  Whether the two imports find
    the extension is given by [in_package] and [on_path]; an import that does
    not find it raises [ImportError]. *)
Definition load_module (in_package on_path : bool) : module :=
  let ns := <["__version__" := Version]> (∅ : gmap string object) in
  let all := ["__version__"; "interpolate"] in
  let ns := <["interpolate" := PythonInterpolate]> ns in
  (* interpolate_py = interpolate *)
  let ns := <["interpolate_py" := PythonInterpolate]> ns in
  if in_package then
    Module_ (<["interpolate" := ExtensionInterpolate true]> ns)
            (all ++ ["interpolate_py"]) []
  else if on_path then
    Module_ (<["interpolate" := ExtensionInterpolate false]> ns)
            (all ++ ["interpolate_py"]) []
  else
    Module_ (delete "interpolate_py" ns) all
            ["failed to import the _akima C extension module"].

(** ** The same function in binary64

    The definitions above read every operation as the exact one.  Where a
    statement depends on what float64 does to a result (a product that
    underflows to zero, a quotient that is [nan]), the function is read again
    with the operations of binary64: the same lines of the source, the same
    primitives on lists, the elements being floats. *)

Module F64.
Import PrimFloat.
Local Open Scope float_scope.

(** [numpy.maximum]: the larger element, and [nan] if either is. *)
Definition maximum (a b : float) : float :=
  if is_nan a then a else if is_nan b then b else if a <? b then b else a.

Definition diff (a : list float) : list float := zip_with sub (drop 1 a) a.
Definition vadd : list float → list float → list float := zip_with add.
Definition vsub : list float → list float → list float := zip_with sub.
Definition vmul : list float → list float → list float := zip_with mul.
Definition scale (k : float) : list float → list float := fmap (mul k).

(** Element-wise [a / b]: at a zero divisor numpy warns and the element is
    [inf] or [nan]. *)
Definition vdiv : list float → list float → list float := zip_with div.

(** [a ** 2], which numpy computes as the square. *)
Definition square (v : float) : float := v * v.

Definition amax (a : list float) : result float :=
  match a with
  | [] => Raise (ValueError "zero-size array to reduction operation maximum which has no identity")
  | v :: rest => Ok (foldl maximum v rest)
  end.

Fixpoint all_steps (ok : float → float → bool) (a : list float) : bool :=
  match a with
  | u :: (v :: _) as rest => ok u v && all_steps ok rest
  | _ => true
  end.

Fixpoint monotonicity (a : list float) : Z :=
  match a with
  | u :: (v :: _) as rest =>
      if u =? v then monotonicity rest
      else if u <? v then (if all_steps leb rest then 1%Z else 0%Z)
      else (if all_steps (λ p q, q <=? p) rest then (-1)%Z else 0%Z)
  | _ => 1%Z
  end.

Fixpoint searchsorted_right (bins : list float) (q : float) : nat :=
  match bins with
  | [] => 0
  | v :: rest => if v <=? q then S (searchsorted_right rest q) else 0
  end.

Definition digitize (xi bins : list float) : result (list Z) :=
  let mono := monotonicity bins in
  if (mono =? 0)%Z then
    Raise (ValueError "bins must be monotonically increasing or decreasing")
  else if (mono =? -1)%Z then
    Ok ((λ q, Z.of_nat (length bins - searchsorted_right (reverse bins) q)) <$> xi)
  else
    Ok ((λ q, Z.of_nat (searchsorted_right bins q)) <$> xi).

(** The literal [1e-9]: the binary64 number nearest to it. *)
Definition eps : float := 0x1.12e0be826d695p-30.

(** Lines 206-221. *)
Definition validate (n ny : nat) (x xi : list float) : result (list float) :=
  if (n <? 3)%nat then Raise (ValueError "array too small")
  else if negb (n =? ny)%nat then
    Raise (ValueError "size of x-array must match data shape")
  else
    let dx := diff x in
    if any ((λ v, v <=? 0) <$> dx) then Raise (ValueError "x-axis not valid")
    else
      x_first ← getitem x 0;
      if any ((λ q, q <? x_first) <$> xi) then
        Raise (ValueError "interpolation x-axis out of bounds")
      else
        x_last ← getitem x (-1);
        if any ((λ q, x_last <? q) <$> xi) then
          Raise (ValueError "interpolation x-axis out of bounds")
        else Ok dx.

(** Lines 223-229. *)
Definition slopes (n : nat) (y dx : list float) : result (list float * list float) :=
  let m := vdiv (diff y) dx in
  m_0 ← getitem m 0;
  m_1 ← getitem m 1;
  let mm := 2 * m_0 - m_1 in
  let mmm := 2 * mm - m_0 in
  m_n2 ← getitem m (Z.of_nat n - 2);
  m_n3 ← getitem m (Z.of_nat n - 3);
  let mp := 2 * m_n2 - m_n3 in
  let mpp := 2 * mp - m_n2 in
  Ok (m, [mmm] ++ [mm] ++ m ++ [mp] ++ [mpp]).

(** Lines 231-234. *)
Definition weights (n : nat) (m1 : list float)
  : list float * list float * list float :=
  let dm := abs <$> diff m1 in
  let f1 := slice dm 2 (n + 2) in
  let f2 := slice dm 0 n in
  (f1, f2, vadd f1 f2).

(** Lines 236-239; the result is [numpy.max(f12)] and [b]. *)
Definition derivatives (n : nat) (m1 : list float) : result (float * list float) :=
  let '(f1, f2, f12) := weights n m1 in
  top ← amax f12;
  let ids := nonzero ((λ w, eps * top <? w) <$> f12) in
  let b := slice m1 1 (n + 1) in
  f1_ids ← take_idx f1 ids;
  m1_lo ← take_idx m1 ((λ k, k + 1)%Z <$> ids);
  f2_ids ← take_idx f2 ids;
  m1_hi ← take_idx m1 ((λ k, k + 2)%Z <$> ids);
  f12_ids ← take_idx f12 ids;
  let rhs := vdiv (vadd (vmul f1_ids m1_lo) (vmul f2_ids m1_hi)) f12_ids in
  b ← setitems b (zip ids rhs);
  Ok (top, b).

(** Lines 240-241. *)
Definition coefficients (n : nat) (m b dx : list float) : list float * list float :=
  let c := vdiv (vsub (vsub (scale 3 m) (scale 2 (slice b 0 (n - 1)))) (slice b 1 n)) dx in
  let d := vdiv (vsub (vadd (slice b 0 (n - 1)) (slice b 1 n)) (scale 2 m))
                (square <$> dx) in
  (c, d).

(** Lines 243-248. *)
Definition evaluate (n : nat) (x y b c d xi : list float) : result (list float) :=
  bins ← digitize xi x;
  let bins := (λ k, Z.min k (Z.of_nat n - 1) - 1)%Z <$> bins in
  let bb := slice bins 0 (length xi) in
  x_bb ← take_idx x bb;
  let wj := vsub xi x_bb in
  d_bb ← take_idx d bb;
  c_bb ← take_idx c bb;
  b_bb ← take_idx b bb;
  y_bb ← take_idx y bb;
  Ok (vadd (vmul (vadd (vmul (vadd (vmul wj d_bb) c_bb) wj) b_bb) wj) y_bb).

(** What lines 223-241 leave behind, with [numpy.max(f12)]. *)
Record spline : Type := Spline {
  sp_m : list float;
  sp_top : float;
  sp_b : list float;
  sp_c : list float;
  sp_d : list float
}.

Definition fit (n : nat) (y dx : list float) : result spline :=
  '(m, m1) ← slopes n y dx;
  '(top, b) ← derivatives n m1;
  let '(c, d) := coefficients n m b dx in
  Ok (Spline m top b c d).

(** Lines 206-248 on one-dimensional arrays. *)
Definition interpolate1 (n ny : nat) (x y xi : list float) : result (list float) :=
  dx ← validate n ny x xi;
  s ← fit n y dx;
  evaluate n x y (sp_b s) (sp_c s) (sp_d s) xi.


(** The least spacing whose square is not zero, and half of it. *)
Definition least_spacing : float := 0x1p-537.
Definition lost_spacing : float := 0x1p-538.

(** The example of the docstring. *)
Definition docstring_x : list float := [0; 1; 2].
Definition docstring_y : list float := [0; 0; 1].
Definition docstring_queries : list float := [0.5; 1.5].
Definition docstring_values : list float := [-0.125; 0.375].

End F64.


(** ** The error monad and the array primitives *)

Section Primitives.
Context {A B : Type}.

Lemma bind_Ok (f : A → result B) (a : A) : (Ok a ≫= f) = f a.
Proof. reflexivity. Qed.

Lemma mapM_Ok (f : A → result B) (g : A → B) (l : list A) :
  (∀ a, a ∈ l → f a = Ok (g a)) → mapM f l = Ok (g <$> l).
Proof.
  induction l as [|a l IH]; intros Hf; [reflexivity|].
  cbn. rewrite (Hf a) by left. cbn.
  rewrite IH by (intros a' Ha'; apply Hf; by right). reflexivity.
Qed.

Lemma mapM_fmap_Ok {C} (f : B → result C) (g : A → B) (h : A → C) (l : list A) :
  (∀ a, a ∈ l → f (g a) = Ok (h a)) → mapM f (g <$> l) = Ok (h <$> l).
Proof.
  induction l as [|a l IH]; intros Hf; [reflexivity|].
  cbn. rewrite (Hf a) by left. cbn.
  rewrite IH by (intros a' Ha'; apply Hf; by right). reflexivity.
Qed.

Lemma zip_with_fmap_diag {C D} (f : B → C → D) (g : A → B) (h : A → C) (l : list A) :
  zip_with f (g <$> l) (h <$> l) = (λ k, f (g k) (h k)) <$> l.
Proof. induction l as [|a l IH]; [reflexivity|]. cbn. by rewrite IH. Qed.
End Primitives.

Section Indexing.
Context `{Inhabited A}.
Implicit Types (a : list A) (k : Z) (i : nat).

Lemma getitem_in_range a k :
  (0 ≤ k < Z.of_nat (length a))%Z → getitem a k = Ok (a !!! Z.to_nat k).
Proof.
  intros Hk. unfold getitem.
  destruct (Z.ltb_spec k 0); [lia|].
  destruct (Z.ltb_spec k 0); [lia|].
  destruct (lookup_lt_is_Some_2 a (Z.to_nat k)) as [v Hv]; [lia|].
  rewrite Hv. f_equal. symmetry. by apply list_lookup_total_correct.
Qed.

Lemma getitem_nat a i v : a !! i = Some v → getitem a (Z.of_nat i) = Ok v.
Proof.
  intros Hv. rewrite getitem_in_range.
  - rewrite Nat2Z.id. f_equal. by apply list_lookup_total_correct.
  - apply lookup_lt_Some in Hv. lia.
Qed.

Lemma getitem_last a v : last a = Some v → getitem a (-1) = Ok v.
Proof.
  intros Hv. rewrite last_lookup in Hv.
  assert (length a ≠ 0)%nat by (destruct a; [discriminate | cbn; lia]).
  unfold getitem. cbn [Z.ltb Z.compare].
  destruct (Z.ltb_spec (-1 + Z.of_nat (length a)) 0); [lia|].
  replace (Z.to_nat (-1 + Z.of_nat (length a))) with (pred (length a)) by lia.
  by rewrite Hv.
Qed.

Lemma take_idx_in_range a (ks : list Z) :
  Forall (λ k, 0 ≤ k < Z.of_nat (length a))%Z ks →
  take_idx a ks = Ok ((λ k, a !!! Z.to_nat k) <$> ks).
Proof.
  intros Hks. apply mapM_Ok. intros k Hk.
  apply getitem_in_range. by eapply Forall_forall in Hks.
Qed.
End Indexing.

(** Comparisons on [Q] as booleans. *)
Lemma Qlt_bool_iff (a b : Q) : Qlt_bool a b = true ↔ a < b.
Proof. unfold Qlt_bool, Qlt. apply Z.ltb_lt. Qed.

Lemma Qlt_bool_false (a b : Q) : Qlt_bool a b = false ↔ b <= a.
Proof. unfold Qlt_bool, Qle. rewrite Z.ltb_ge. reflexivity. Qed.

Lemma Qle_bool_false (a b : Q) : Qle_bool a b = false ↔ b < a.
Proof.
  rewrite <- not_true_iff_false, Qle_bool_iff. split; [apply Qnot_le_lt | apply Qlt_not_le].
Qed.

Lemma Qeq_bool_false (a b : Q) : Qeq_bool a b = false ↔ ¬ a == b.
Proof. rewrite <- not_true_iff_false, Qeq_bool_iff. reflexivity. Qed.

Lemma any_false {A} (p : A → bool) (l : list A) :
  any (p <$> l) = false ↔ Forall (λ a, p a = false) l.
Proof.
  unfold any. induction l as [|a l IH]; cbn.
  - split; [constructor | reflexivity].
  - rewrite orb_false_iff, IH, Forall_cons. reflexivity.
Qed.

Section Arrays.
Implicit Types (a b : list Q) (i lo hi : nat).

Lemma length_slice {A} (l : list A) lo hi :
  length (slice l lo hi) = ((hi - lo) `min` (length l - lo))%nat.
Proof. unfold slice. by rewrite length_take, length_drop. Qed.

Lemma slice_lookup_total a lo hi i :
  (i < hi - lo)%nat → slice a lo hi !!! i = a !!! (lo + i)%nat.
Proof.
  intros Hi. unfold slice. by rewrite lookup_total_take_lt, lookup_total_drop.
Qed.

Lemma length_diff a : length (diff a) = (length a - 1)%nat.
Proof. unfold diff. rewrite length_zip_with, length_drop. lia. Qed.

Lemma diff_lookup_total a i :
  (S i < length a)%nat → diff a !!! i = a !!! S i - a !!! i.
Proof.
  intros Hi. unfold diff.
  rewrite (lookup_total_zip_with Qminus (drop 1 a) a i)
    by (rewrite ?length_drop; lia).
  by rewrite lookup_total_drop.
Qed.

Lemma vdiv_fmap {A} (N D : A → Q) (l : list A) :
  (∀ k, k ∈ l → ¬ D k == 0) →
  vdiv (N <$> l) (D <$> l) = Ok ((λ k, N k / D k) <$> l).
Proof.
  intros HD. unfold vdiv. rewrite zip_with_fmap_diag.
  apply mapM_fmap_Ok. intros k Hk. unfold div1. cbn.
  destruct (Qeq_bool (D k) 0) eqn:E; [|reflexivity].
  apply Qeq_bool_iff in E. by destruct (HD k).
Qed.

Lemma vdiv_nonzero a b :
  Forall (λ v, ¬ v == 0) b → vdiv a b = Ok (zip_with Qdiv a b).
Proof.
  intros Hb. unfold vdiv. rewrite (zip_with_zip Qdiv).
  apply mapM_Ok. intros [u v] Hp. unfold div1. cbn.
  apply elem_of_zip_r in Hp. eapply Forall_forall in Hb; [|done].
  apply Qeq_bool_false in Hb. by rewrite Hb.
Qed.

(** [numpy.max] returns an element that bounds all the others. *)
Lemma foldl_Qmax_spec v a :
  foldl Qmax v a ∈ v :: a ∧ Forall (λ u, u <= foldl Qmax v a) (v :: a).
Proof.
  revert v. induction a as [|w a IH]; intros v; cbn.
  - split; [left | repeat constructor; apply Qle_refl].
  - destruct (IH (Qmax v w)) as [Hin Hall].
    apply Forall_cons in Hall as [Hvw Hall].
    split.
    + apply elem_of_cons in Hin as [Hin|Hin]; [|by do 2 right].
      rewrite Hin. unfold Qmax, GenericMinMax.gmax.
      destruct (v ?= w); [left | right; left | left].
    + pose proof (Q.le_max_l v w). pose proof (Q.le_max_r v w).
      repeat constructor; [lra | lra | done].
Qed.

Lemma amax_spec a :
  a ≠ [] → ∃ top, amax a = Ok top ∧ top ∈ a ∧ Forall (λ u, u <= top) a.
Proof.
  destruct a as [|v a]; [done|]. intros _.
  exists (foldl Qmax v a). split; [reflexivity | apply foldl_Qmax_spec].
Qed.
End Arrays.

(** [nonzero] lists exactly the positions of the true entries. *)
Lemma elem_of_nonzero_from (s : Z) (mask : list bool) (k : Z) :
  k ∈ nonzero_from s mask ↔ ∃ i : nat, k = (s + Z.of_nat i)%Z ∧ mask !! i = Some true.
Proof.
  revert s. induction mask as [|t mask IH]; intros s; cbn.
  - split; [inversion 1 | by intros (i & _ & ?)].
  - assert (k ∈ nonzero_from (s + 1) mask ↔
            ∃ i : nat, k = (s + Z.of_nat (S i))%Z ∧ mask !! i = Some true) as IH'.
    { rewrite IH. split; intros (i & -> & Hi); exists i; (split; [lia | done]). }
    destruct t.
    + rewrite elem_of_cons, IH'. split.
      * intros [-> | (i & -> & Hi)]; [exists 0%nat | exists (S i)]; (split; [lia | done]).
      * intros ([|i] & -> & Hi); [left; lia | right; by exists i].
    + rewrite IH'. split.
      * intros (i & -> & Hi). by exists (S i).
      * intros ([|i] & -> & Hi); [discriminate | by exists i].
Qed.

Lemma elem_of_nonzero (mask : list bool) (k : Z) :
  k ∈ nonzero mask ↔ ∃ i : nat, k = Z.of_nat i ∧ mask !! i = Some true.
Proof. unfold nonzero. rewrite elem_of_nonzero_from. reflexivity. Qed.

(** A store [a[ids] = G(ids)] whose value depends on the position only. *)
Lemma setitems_fmap {A} (G : Z → A) (ids : list Z) (a : list A) :
  Forall (λ k, 0 ≤ k < Z.of_nat (length a))%Z ids →
  ∃ a', setitems a (zip ids (G <$> ids)) = Ok a' ∧ length a' = length a ∧
    ∀ i : nat,
      (Z.of_nat i ∈ ids → a' !! i = Some (G (Z.of_nat i))) ∧
      (Z.of_nat i ∉ ids → a' !! i = a !! i).
Proof.
  revert a. induction ids as [|k ids IH]; intros a Hids.
  - exists a. do 2 (split; [done|]). intros i. split; [inversion 1 | done].
  - apply Forall_cons in Hids as [Hk Hids]. cbn.
    unfold setitem.
    destruct (Z.ltb_spec k 0); [lia|].
    destruct (Z.ltb_spec k 0); [lia|].
    destruct (Z.leb_spec (Z.of_nat (length a)) k); [lia|]. cbn.
    destruct (IH (<[Z.to_nat k := G k]> a)) as (a' & Hset & Hlen & Hget).
    { by rewrite length_insert. }
    exists a'. split; [done|]. rewrite length_insert in Hlen. split; [done|].
    intros i. destruct (Hget i) as [Hin Hout]. split.
    + intros Hi. destruct (decide (Z.of_nat i ∈ ids)) as [|Hni]; [by apply Hin|].
      apply elem_of_cons in Hi as [Hi|]; [|done].
      rewrite Hout by done. rewrite <- Hi, Nat2Z.id.
      apply list_lookup_insert_eq. lia.
    + intros Hi. apply not_elem_of_cons in Hi as [Hne Hni].
      rewrite Hout by done. apply list_lookup_insert_ne. lia.
Qed.

(** ** Strictly increasing abscissas *)

Section Increasing.
Implicit Types (x : list Q) (q : Q) (i j : nat).

Lemma increasing_tail u x : increasing (u :: x) → increasing x.
Proof. intros Hx i a b Ha Hb. by apply (Hx (S i) a b). Qed.

Lemma increasing_cons u v x :
  u < v → increasing (v :: x) → increasing (u :: v :: x).
Proof.
  intros Huv Hx [|i] a b Ha Hb.
  - cbn in Ha, Hb. by simplify_eq.
  - by apply (Hx i a b).
Qed.

Lemma increasing_step x i :
  increasing x → (S i < length x)%nat → x !!! i < x !!! S i.
Proof.
  intros Hx Hi. apply (Hx i); apply list_lookup_lookup_total_lt; lia.
Qed.

Lemma increasing_le x i j :
  increasing x → (i ≤ j)%nat → (j < length x)%nat → x !!! i <= x !!! j.
Proof.
  intros Hx Hij Hj. induction Hij as [|j Hij IH]; [apply Qle_refl|].
  pose proof (increasing_step x j Hx Hj). specialize (IH ltac:(lia)). lra.
Qed.

Lemma increasing_lt x i j :
  increasing x → (i < j)%nat → (j < length x)%nat → x !!! i < x !!! j.
Proof.
  intros Hx Hij Hj. destruct j as [|j]; [lia|].
  pose proof (increasing_le x i j Hx ltac:(lia) ltac:(lia)).
  pose proof (increasing_step x j Hx Hj). lra.
Qed.

(** The check [any(dx <= 0.0)] decides [increasing]. *)
Lemma increasing_check x :
  any ((λ v, Qle_bool v 0) <$> diff x) = false ↔ increasing x.
Proof.
  rewrite any_false. induction x as [|u [|v x] IH].
  - split; [by intros _ [|?] ?? | constructor].
  - split; [by intros _ [|[|?]] ?? | constructor].
  - change (diff (u :: v :: x)) with ((v - u) :: diff (v :: x)).
    rewrite Forall_cons, IH, Qle_bool_false. split.
    + intros [Huv Hx]. apply increasing_cons; [lra | done].
    + intros Hx. split; [|by eapply increasing_tail].
      pose proof (Hx 0%nat u v eq_refl eq_refl). lra.
Qed.

Lemma increasing_diff_pos x : increasing x → Forall (λ v, 0 < v) (diff x).
Proof.
  intros Hx%increasing_check%any_false.
  eapply Forall_impl; [done|]. intros v Hv. by apply Qle_bool_false.
Qed.

Lemma all_steps_cons ok u v x :
  all_steps ok (u :: v :: x) = ok u v && all_steps ok (v :: x).
Proof. reflexivity. Qed.

Lemma all_steps_increasing x : increasing x → all_steps Qle_bool x = true.
Proof.
  induction x as [|u [|v x] IH]; intros Hx; try reflexivity.
  rewrite all_steps_cons, IH by (by eapply increasing_tail).
  pose proof (Hx 0%nat u v eq_refl eq_refl).
  rewrite andb_true_r. apply Qle_bool_iff. lra.
Qed.

(** [digitize] finds the bins of a strictly increasing [x] increasing. *)
Lemma monotonicity_increasing x : increasing x → monotonicity x = 1%Z.
Proof.
  destruct x as [|u [|v x]]; intros Hx; try reflexivity.
  pose proof (Hx 0%nat u v eq_refl eq_refl) as Huv.
  change (monotonicity (u :: v :: x)) with
    (if Qeq_bool u v then monotonicity (v :: x)
     else if Qlt_bool u v then (if all_steps Qle_bool (v :: x) then 1 else 0)%Z
     else (if all_steps (λ p q, Qle_bool q p) (v :: x) then -1 else 0)%Z).
  destruct (Qeq_bool u v) eqn:E; [apply Qeq_bool_iff in E; lra|].
  apply Qlt_bool_iff in Huv. rewrite Huv.
  rewrite all_steps_increasing; [done | by eapply increasing_tail].
Qed.

(** The search stops at the first bin above [q]. *)
Lemma searchsorted_right_le x q : (searchsorted_right x q ≤ length x)%nat.
Proof. induction x as [|u x IH]; cbn; [lia|]. destruct (Qle_bool u q); cbn; lia. Qed.

Lemma searchsorted_right_below x q i :
  (i < searchsorted_right x q)%nat → x !!! i <= q.
Proof.
  revert i. induction x as [|u x IH]; intros i; cbn; [lia|].
  destruct (Qle_bool u q) eqn:E; [|lia]. apply Qle_bool_iff in E.
  destruct i as [|i]; [done|]. intros Hi. apply IH. lia.
Qed.

Lemma searchsorted_right_above x q :
  (searchsorted_right x q < length x)%nat → q < x !!! searchsorted_right x q.
Proof.
  induction x as [|u x IH]; cbn; [lia|].
  destruct (Qle_bool u q) eqn:E.
  - intros Hlt. apply IH. lia.
  - intros _. by apply Qle_bool_false.
Qed.

Lemma searchsorted_right_largest x q i :
  increasing x → (i < length x)%nat → x !!! i <= q →
  (i < searchsorted_right x q)%nat.
Proof.
  intros Hx Hi Hq. destruct (decide (i < searchsorted_right x q)%nat); [done|].
  pose proof (searchsorted_right_le x q).
  pose proof (searchsorted_right_above x q ltac:(lia)).
  pose proof (increasing_le x (searchsorted_right x q) i Hx ltac:(lia) Hi). lra.
Qed.
End Increasing.

(** ** Validation (lines 198-221) *)

Section Validation.
Implicit Types (x y xi : list Q) (q : Q).

Lemma interp_unfold x y xi :
  interp x y xi = interpolate1 (length x) (length y) x y xi.
Proof. reflexivity. Qed.

Lemma in_domain_bounds x q lo hi :
  x !! 0%nat = Some lo → last x = Some hi →
  in_domain x q ↔ lo <= q ∧ q <= hi.
Proof.
  intros Hlo Hhi. split.
  - intros (lo' & hi' & Hlo' & Hhi' & ?). by simplify_eq.
  - intros [??]. by exists lo, hi.
Qed.

Lemma domain_check x xi lo hi :
  x !! 0%nat = Some lo → last x = Some hi →
  any ((λ q, Qlt_bool q lo) <$> xi) = false ∧
  any ((λ q, Qlt_bool hi q) <$> xi) = false ↔ Forall (in_domain x) xi.
Proof.
  intros Hlo Hhi. rewrite !any_false, <- Forall_and.
  apply Forall_iff. intros q.
  rewrite (in_domain_bounds x q lo hi), !Qlt_bool_false; done.
Qed.

Lemma valid_ends x y :
  valid x y → ∃ lo hi, x !! 0%nat = Some lo ∧ last x = Some hi.
Proof.
  intros [Hn _ _]. destruct x as [|lo x]; [cbn in Hn; lia|].
  destruct (last (lo :: x)) as [hi|] eqn:E; [by exists lo, hi|].
  by apply last_None in E.
Qed.

Lemma validate_too_small ny x xi :
  (length x < 3)%nat →
  validate (length x) ny x xi = Raise (ValueError "array too small").
Proof. intros Hn. unfold validate. by destruct (Nat.ltb_spec (length x) 3); [|lia]. Qed.

Lemma validate_mismatch ny x xi :
  (3 ≤ length x)%nat → ny ≠ length x →
  validate (length x) ny x xi
  = Raise (ValueError "size of x-array must match data shape").
Proof.
  intros Hn Hny. unfold validate.
  destruct (Nat.ltb_spec (length x) 3); [lia|].
  by destruct (Nat.eqb_spec (length x) ny).
Qed.

Lemma validate_not_increasing x xi :
  (3 ≤ length x)%nat → ¬ increasing x →
  validate (length x) (length x) x xi = Raise (ValueError "x-axis not valid").
Proof.
  intros Hn Hx. unfold validate.
  destruct (Nat.ltb_spec (length x) 3); [lia|].
  rewrite Nat.eqb_refl. cbn [negb].
  destruct (any _) eqn:E; [done|]. by apply increasing_check in E.
Qed.

Lemma validate_checked x xi lo hi :
  (3 ≤ length x)%nat → increasing x →
  x !! 0%nat = Some lo → last x = Some hi →
  validate (length x) (length x) x xi
  = if any ((λ q, Qlt_bool q lo) <$> xi) || any ((λ q, Qlt_bool hi q) <$> xi)
    then Raise (ValueError "interpolation x-axis out of bounds")
    else Ok (diff x).
Proof.
  intros Hn Hx Hlo Hhi. unfold validate.
  destruct (Nat.ltb_spec (length x) 3); [lia|].
  rewrite Nat.eqb_refl. cbn [negb].
  apply increasing_check in Hx. rewrite Hx.
  rewrite (getitem_nat x 0 lo Hlo : getitem x 0 = Ok lo), bind_Ok.
  destruct (any ((λ q, Qlt_bool q lo) <$> xi)); [done|].
  rewrite (getitem_last x hi Hhi), bind_Ok. by destruct (any _).
Qed.

Lemma validate_out_of_bounds x y xi :
  valid x y → ¬ Forall (in_domain x) xi →
  validate (length x) (length y) x xi
  = Raise (ValueError "interpolation x-axis out of bounds").
Proof.
  intros Hv Hxi. destruct (valid_ends x y Hv) as (lo & hi & Hlo & Hhi).
  destruct Hv as [Hn Hlen Hx]. rewrite Hlen.
  rewrite (validate_checked x xi lo hi) by done.
  destruct (any ((λ q, Qlt_bool q lo) <$> xi)) eqn:E1; [done|].
  destruct (any ((λ q, Qlt_bool hi q) <$> xi)) eqn:E2; [done|].
  destruct Hxi. by apply (domain_check x xi lo hi Hlo Hhi).
Qed.

Lemma validate_ok x y xi :
  valid x y → Forall (in_domain x) xi →
  validate (length x) (length y) x xi = Ok (diff x).
Proof.
  intros Hv Hxi. destruct (valid_ends x y Hv) as (lo & hi & Hlo & Hhi).
  destruct Hv as [Hn Hlen Hx]. rewrite Hlen.
  rewrite (validate_checked x xi lo hi) by done.
  destruct (proj2 (domain_check x xi lo hi Hlo Hhi) Hxi) as [E1 E2].
  by rewrite E1, E2.
Qed.
End Validation.

(** ** Derivative estimation (lines 223-239) *)

Section Derivatives.
Variables (n : nat) (m1 : list Q).
Hypothesis Hn : (1 ≤ n)%nat.
Hypothesis Hm1 : length m1 = (n + 3)%nat.

Let dm := Qabs <$> diff m1.
Let f1 := slice dm 2 (n + 2).
Let f2 := slice dm 0 n.
Let f12 := vadd f1 f2.

Lemma dm_lookup j : (j < n + 2)%nat → dm !!! j = gap m1 j.
Proof.
  intros Hj. unfold dm, gap.
  rewrite (list_lookup_total_fmap Qabs (diff m1) j) by (rewrite length_diff; lia).
  by rewrite diff_lookup_total by lia.
Qed.

Lemma length_f1 : length f1 = n.
Proof. unfold f1, dm. rewrite length_slice, length_fmap, length_diff. lia. Qed.

Lemma length_f2 : length f2 = n.
Proof. unfold f2, dm. rewrite length_slice, length_fmap, length_diff. lia. Qed.

Lemma length_f12 : length f12 = n.
Proof. unfold f12, vadd. rewrite length_zip_with, length_f1, length_f2. lia. Qed.

Lemma f1_lookup i : (i < n)%nat → f1 !!! i = gap m1 (i + 2).
Proof.
  intros Hi. unfold f1. rewrite slice_lookup_total, dm_lookup by lia.
  f_equal. lia.
Qed.

Lemma f2_lookup i : (i < n)%nat → f2 !!! i = gap m1 i.
Proof. intros Hi. unfold f2. by rewrite slice_lookup_total, dm_lookup by lia. Qed.

Lemma f12_lookup i : (i < n)%nat → f12 !!! i = weight m1 i.
Proof.
  intros Hi. unfold f12, vadd, weight.
  rewrite (lookup_total_zip_with Qplus f1 f2 i) by (rewrite ?length_f1, ?length_f2; lia).
  by rewrite f1_lookup, f2_lookup.
Qed.

Lemma gap_nonneg j : 0 <= gap m1 j.
Proof. apply Qabs_nonneg. Qed.

Lemma weight_nonneg i : 0 <= weight m1 i.
Proof.
  unfold weight.
  pose proof (gap_nonneg (i + 2)). pose proof (gap_nonneg i). lra.
Qed.
Lemma derivatives_ok :
  ∃ b top, derivatives n m1 = Ok b ∧ length b = n ∧
    (∃ j, (j < n)%nat ∧ top = weight m1 j) ∧
    (∀ j, (j < n)%nat → weight m1 j <= top) ∧
    ∀ i, (i < n)%nat →
      (eps * top < weight m1 i →
       b !!! i = (gap m1 (i + 2) * m1 !!! (i + 1)%nat + gap m1 i * m1 !!! (i + 2)%nat)
                 / weight m1 i) ∧
      (¬ eps * top < weight m1 i → b !!! i = m1 !!! (i + 1)%nat).
Proof.
  destruct (amax_spec f12) as (top & Hmax & Hin & Hall).
  { intros E. pose proof length_f12 as L. rewrite E in L. cbn in L. lia. }
  apply list_elem_of_lookup_total in Hin as (j & Hj & Htop).
  rewrite length_f12 in Hj. rewrite f12_lookup in Htop by done.
  assert (∀ i, (i < n)%nat → weight m1 i <= top) as Hle.
  { intros i Hi. rewrite <- f12_lookup by done.
    apply (Forall_lookup_total_1 _ f12 i Hall). by rewrite length_f12. }
  assert (0 <= top) as Htop0 by (rewrite <- Htop; apply weight_nonneg).
  set (ids := nonzero ((λ w, Qlt_bool (eps * top) w) <$> f12)).
  assert (∀ k, k ∈ ids ↔
               ∃ i, k = Z.of_nat i ∧ (i < n)%nat ∧ eps * top < weight m1 i) as Hids.
  { intros k. unfold ids. rewrite elem_of_nonzero.
    split; intros (i & -> & Hi); exists i; (split; [done|]).
    - rewrite list_lookup_fmap in Hi.
      destruct (f12 !! i) as [w|] eqn:E; [|discriminate].
      pose proof (lookup_lt_Some _ _ _ E) as Hlt. rewrite length_f12 in Hlt.
      apply list_lookup_total_correct in E. rewrite f12_lookup in E by done.
      cbn in Hi. injection Hi as Hi. apply Qlt_bool_iff in Hi.
      rewrite E. done.
    - destruct Hi as [Hi Hw]. rewrite list_lookup_fmap.
      rewrite (list_lookup_lookup_total_lt f12 i) by (by rewrite length_f12).
      cbn. f_equal. apply Qlt_bool_iff. by rewrite f12_lookup. }
  assert (∀ (len : nat) (off : Z), (0 ≤ off)%Z → (Z.of_nat n + off ≤ Z.of_nat len)%Z →
            Forall (λ k, 0 ≤ k < Z.of_nat len)%Z ((λ k, k + off)%Z <$> ids)) as Hrange.
  { intros len off ??. apply Forall_fmap, Forall_forall. intros k Hk.
    apply Hids in Hk as (i & -> & Hi & _). cbn. lia. }
  assert (ids = (λ k, k + 0)%Z <$> ids) as Hid0.
  { rewrite <- (list_fmap_id ids) at 1. apply list_fmap_ext. intros; cbn; lia. }
  set (G := λ k : Z,
         (f1 !!! Z.to_nat k * m1 !!! Z.to_nat (k + 1)
          + f2 !!! Z.to_nat k * m1 !!! Z.to_nat (k + 2)) / f12 !!! Z.to_nat k).
  assert (derivatives n m1 = setitems (slice m1 1 (n + 1)) (zip ids (G <$> ids)))
    as Hrun.
  { unfold derivatives, weights. cbv beta zeta iota.
    fold dm. fold f1. fold f2. fold f12. rewrite Hmax, bind_Ok. fold ids.
    rewrite (take_idx_in_range f1 ids), bind_Ok
      by (rewrite Hid0; apply Hrange; rewrite ?length_f1; lia).
    rewrite (take_idx_in_range m1 ((λ k, k + 1)%Z <$> ids)), bind_Ok
      by (apply Hrange; lia).
    rewrite (take_idx_in_range f2 ids), bind_Ok
      by (rewrite Hid0; apply Hrange; rewrite ?length_f2; lia).
    rewrite (take_idx_in_range m1 ((λ k, k + 2)%Z <$> ids)), bind_Ok
      by (apply Hrange; lia).
    rewrite (take_idx_in_range f12 ids), bind_Ok
      by (rewrite Hid0; apply Hrange; rewrite ?length_f12; lia).
    rewrite <- !list_fmap_compose. unfold vmul, vadd.
    rewrite !zip_with_fmap_diag. rewrite vdiv_fmap, bind_Ok; [done|].
    intros k (i & -> & Hi & Hw)%Hids. rewrite Nat2Z.id, f12_lookup by done.
    unfold eps in Hw. lra. }
  rewrite Hrun.
  destruct (setitems_fmap G ids (slice m1 1 (n + 1))) as (b & Hset & Hlen & Hget).
  { rewrite Hid0. apply Hrange; rewrite ?length_slice; lia. }
  rewrite length_slice in Hlen.
  exists b, top. split; [done|]. split; [lia|].
  split; [by exists j|]. split; [done|].
  intros i Hi. destruct (Hget i) as [Hyes Hno]. split; intros Hw.
  - apply list_lookup_total_correct. rewrite Hyes by (apply Hids; by exists i).
    f_equal. unfold G. cbn. rewrite Nat2Z.id.
    rewrite f1_lookup, f2_lookup, f12_lookup by done.
    by replace (Z.to_nat (Z.of_nat i + 1)) with (i + 1)%nat by lia;
       replace (Z.to_nat (Z.of_nat i + 2)) with (i + 2)%nat by lia.
  - rewrite list_lookup_total_alt, Hno.
    + rewrite <- list_lookup_total_alt, slice_lookup_total by lia.
      f_equal. lia.
    + intros (i' & Hi' & _ & Hw')%Hids.
      apply Nat2Z.inj in Hi' as <-. done.
Qed.
End Derivatives.

(** ** Slopes and coefficients (lines 223-229 and 240-241) *)

Section Fitting.
Variables (x y : list Q).
Hypothesis Hv : valid x y.

Let n := length x.

Lemma slopes_ok :
  ∃ m, slopes n y (diff x) = Ok (m, extended n m) ∧
    length m = (n - 1)%nat ∧
    ∀ i, (i < n - 1)%nat →
      m !!! i = (y !!! S i - y !!! i) / (x !!! S i - x !!! i).
Proof.
  destruct Hv as [Hn Hlen Hx]. fold n in Hn, Hlen.
  pose proof (increasing_diff_pos x Hx) as Hpos.
  exists (zip_with Qdiv (diff y) (diff x)).
  assert (length (zip_with Qdiv (diff y) (diff x)) = (n - 1)%nat) as Hm.
  { rewrite length_zip_with, !length_diff. fold n. lia. }
  split; [|split; [done|]].
  - unfold slopes. rewrite vdiv_nonzero, bind_Ok; cycle 1.
    { eapply Forall_impl; [done|]. intros v ?. cbn in *. lra. }
    rewrite !getitem_in_range, !bind_Ok by (rewrite Hm; lia).
    unfold extended.
    replace (Z.to_nat (Z.of_nat n - 2)) with (n - 2)%nat by lia.
    replace (Z.to_nat (Z.of_nat n - 3)) with (n - 3)%nat by lia.
    reflexivity.
  - intros i Hi.
    rewrite (lookup_total_zip_with Qdiv (diff y) (diff x) i)
      by (rewrite length_diff; fold n; lia).
    by rewrite !diff_lookup_total by (fold n; lia).
Qed.

Lemma coefficients_ok (m b : list Q) :
  length m = (n - 1)%nat → length b = n →
  ∃ c d, coefficients n m b (diff x) = Ok (c, d) ∧
    length c = (n - 1)%nat ∧ length d = (n - 1)%nat ∧
    ∀ i, (i < n - 1)%nat →
      c !!! i = (3 * m !!! i - 2 * b !!! i - b !!! S i) / (x !!! S i - x !!! i) ∧
      d !!! i = (b !!! i + b !!! S i - 2 * m !!! i) / (x !!! S i - x !!! i) ^ 2.
Proof.
  intros Hm Hb. destruct Hv as [Hn Hlen Hx]. fold n in Hn, Hlen.
  pose proof (increasing_diff_pos x Hx) as Hpos.
  set (num_c := vsub (vsub (scale 3 m) (scale 2 (slice b 0 (n - 1)))) (slice b 1 n)).
  set (num_d := vsub (vadd (slice b 0 (n - 1)) (slice b 1 n)) (scale 2 m)).
  set (dx2 := (λ v, v ^ 2) <$> diff x).
  assert (length (slice b 0 (n - 1)) = (n - 1)%nat) as Hb0
    by (rewrite length_slice; lia).
  assert (length (slice b 1 n) = (n - 1)%nat) as Hb1
    by (rewrite length_slice; lia).
  assert (length num_c = (n - 1)%nat) as Hnc.
  { unfold num_c, vsub, scale. rewrite !length_zip_with, !length_fmap. lia. }
  assert (length num_d = (n - 1)%nat) as Hnd.
  { unfold num_d, vsub, vadd, scale. rewrite !length_zip_with, !length_fmap. lia. }
  assert (length (diff x) = (n - 1)%nat) as Hdx by (rewrite length_diff; done).
  exists (zip_with Qdiv num_c (diff x)), (zip_with Qdiv num_d dx2).
  split; [|split; [|split]].
  - unfold coefficients. fold num_c. fold num_d. fold dx2.
    rewrite (vdiv_nonzero num_c (diff x)), bind_Ok; cycle 1.
    { eapply Forall_impl; [done|]. intros v ?. cbn in *. lra. }
    rewrite vdiv_nonzero, bind_Ok; [done|].
    unfold dx2. apply Forall_fmap. eapply Forall_impl; [done|].
    intros v ?. cbn in *. intros E. apply (Qpower_not_0 v 2); [lra | done].
  - rewrite length_zip_with. lia.
  - unfold dx2. rewrite length_zip_with, length_fmap. lia.
  - intros i Hi. split.
    + rewrite (lookup_total_zip_with Qdiv num_c (diff x) i) by lia.
      rewrite diff_lookup_total by (fold n; lia). f_equal.
      unfold num_c, vsub, scale.
      rewrite (lookup_total_zip_with Qminus _ _ i)
        by (rewrite ?length_zip_with, ?length_fmap; lia).
      rewrite (lookup_total_zip_with Qminus _ _ i)
        by (rewrite ?length_fmap; lia).
      rewrite (list_lookup_total_fmap (Qmult 3) m i) by lia.
      rewrite (list_lookup_total_fmap (Qmult 2) _ i) by lia.
      by rewrite !slice_lookup_total by lia.
    + rewrite (lookup_total_zip_with Qdiv num_d dx2 i)
        by (unfold dx2; rewrite ?length_fmap; lia).
      unfold dx2. rewrite (list_lookup_total_fmap (λ v, v ^ 2) (diff x) i) by lia.
      rewrite diff_lookup_total by (fold n; lia). f_equal.
      unfold num_d, vsub, vadd, scale.
      rewrite (lookup_total_zip_with Qminus _ _ i)
        by (rewrite ?length_zip_with, ?length_fmap; lia).
      rewrite (lookup_total_zip_with Qplus _ _ i) by lia.
      rewrite (list_lookup_total_fmap (Qmult 2) m i) by lia.
      by rewrite !slice_lookup_total by lia.
Qed.
End Fitting.

Lemma length_extended (n : nat) (m : list Q) :
  length (extended n m) = (length m + 4)%nat.
Proof. unfold extended. cbn. rewrite length_app. cbn. lia. Qed.

Lemma fit_ok (x y : list Q) :
  valid x y → ∃ s top, fit (length x) y (diff x) = Ok s ∧ fitted x y s top.
Proof.
  intros Hv. pose proof (valid_size x y Hv) as Hn.
  destruct (slopes_ok x y Hv) as (m & Hslopes & Hm & Hmi).
  destruct (derivatives_ok (length x) (extended (length x) m))
    as (b & top & Hder & Hb & Hatt & Hbound & Hbi);
    [lia | rewrite length_extended; lia |].
  destruct (coefficients_ok x y Hv m b Hm Hb) as (c & d & Hco & Hc & Hd & Hcd).
  exists (Spline m (extended (length x) m) b c d), top. split.
  - unfold fit. rewrite Hslopes, bind_Ok. cbv beta iota.
    rewrite Hder, bind_Ok, Hco, bind_Ok. reflexivity.
  - constructor; cbn [sp_m sp_m1 sp_b sp_c sp_d]; try done.
    + intros i Hi. by apply Hbi.
    + intros i Hi. by apply Hbi.
    + intros i Hi. by apply Hcd.
    + intros i Hi. by apply Hcd.
Qed.

(** ** Evaluation (lines 243-248) *)

Section Evaluation.
Variables (x y : list Q).
Hypothesis Hv : valid x y.

Lemma zip_with_fmap_r_diag {A B C} (f : A → B → C) (g : A → B) (l : list A) :
  zip_with f l (g <$> l) = (λ k, f k (g k)) <$> l.
Proof. induction l as [|a l IH]; [reflexivity|]. cbn. by rewrite IH. Qed.

Lemma slice_all {A} (l : list A) (k : nat) : length l = k → slice l 0 k = l.
Proof. intros <-. unfold slice. rewrite drop_0. apply take_ge. lia. Qed.

(** The segment of a query inside the domain is one of [0 .. n-2], its left
    knot is not above the query, and unless it is the last segment its right
    knot is above the query. *)
Lemma segment_spec q :
  in_domain x q →
  (0 ≤ segment x q ≤ Z.of_nat (length x) - 2)%Z ∧
  x !!! Z.to_nat (segment x q) <= q ∧
  q <= x !!! S (Z.to_nat (segment x q)) ∧
  ((segment x q < Z.of_nat (length x) - 2)%Z → q < x !!! S (Z.to_nat (segment x q))).
Proof.
  intros (lo & hi & Hlo & Hhi & Hq1 & Hq2).
  destruct Hv as [Hn _ Hx].
  apply list_lookup_total_correct in Hlo.
  rewrite last_lookup in Hhi. apply list_lookup_total_correct in Hhi.
  pose proof (searchsorted_right_le x q) as Hle.
  pose proof (searchsorted_right_largest x q 0 Hx ltac:(lia) ltac:(by rewrite Hlo)) as H1.
  unfold segment.
  destruct (Z.min_spec (Z.of_nat (searchsorted_right x q)) (Z.of_nat (length x) - 1))
    as [[Hlt ->] | [Hge ->]].
  - replace (Z.to_nat (Z.of_nat (searchsorted_right x q) - 1))
      with (searchsorted_right x q - 1)%nat by lia.
    replace (S (searchsorted_right x q - 1)) with (searchsorted_right x q) by lia.
    pose proof (searchsorted_right_above x q ltac:(lia)).
    pose proof (searchsorted_right_below x q (searchsorted_right x q - 1) ltac:(lia)).
    repeat split; try lia; try done. lra.
  - replace (Z.to_nat (Z.of_nat (length x) - 1 - 1)) with (length x - 2)%nat by lia.
    replace (S (length x - 2)) with (pred (length x)) by lia.
    pose proof (searchsorted_right_below x q (length x - 2) ltac:(lia)).
    repeat split; try lia; try done. by rewrite Hhi.
Qed.

Lemma evaluate_ok (b c d xi : list Q) :
  length b = length x → length c = (length x - 1)%nat →
  length d = (length x - 1)%nat →
  Forall (in_domain x) xi →
  evaluate (length x) x y b c d xi = Ok (horner x y b c d <$> xi).
Proof.
  intros Hb Hc Hd Hxi. pose proof Hv as [Hn Hy Hx].
  assert (∀ len : nat, (length x - 1 ≤ len)%nat →
            Forall (λ k, 0 ≤ k < Z.of_nat len)%Z (segment x <$> xi)) as Hrange.
  { intros len Hlen. apply Forall_fmap. eapply Forall_impl; [done|].
    intros q Hq. destruct (segment_spec q Hq) as [? _]. cbn. lia. }
  unfold evaluate, digitize.
  rewrite (monotonicity_increasing x Hx). cbn [Z.eqb Pos.eqb]. rewrite bind_Ok.
  rewrite <- list_fmap_compose.
  rewrite slice_all by (by rewrite length_fmap).
  change (_ ∘ _) with (segment x).
  rewrite (take_idx_in_range x), bind_Ok by (apply Hrange; lia).
  rewrite (take_idx_in_range d), bind_Ok by (apply Hrange; lia).
  rewrite (take_idx_in_range c), bind_Ok by (apply Hrange; lia).
  rewrite (take_idx_in_range b), bind_Ok by (apply Hrange; lia).
  rewrite (take_idx_in_range y), bind_Ok by (apply Hrange; lia).
  rewrite <- !list_fmap_compose. unfold vsub, vadd, vmul.
  rewrite zip_with_fmap_r_diag, !zip_with_fmap_diag.
  reflexivity.
Qed.
End Evaluation.

(** ** The whole call *)

(** On valid samples and queries inside the domain every stage succeeds, and
    the output is the list of the values of the spline at the queries. *)
Lemma interp_ok (x y xi : list Q) :
  valid x y → Forall (in_domain x) xi →
  ∃ s top, fit (length x) y (diff x) = Ok s ∧ fitted x y s top ∧
    interp x y xi = Ok (horner x y (sp_b s) (sp_c s) (sp_d s) <$> xi).
Proof.
  intros Hv Hxi. destruct (fit_ok x y Hv) as (s & top & Hfit & Hs).
  exists s, top. split; [done|]. split; [done|].
  rewrite interp_unfold. unfold interpolate1.
  rewrite (validate_ok x y xi Hv Hxi), bind_Ok, Hfit, bind_Ok.
  apply (evaluate_ok x y Hv); [apply Hs..|done].
Qed.

(** A failure of the call on flat sequences is a failure of the checks. *)
Lemma interp_raise_validate (x y xi : list Q) (e : exn) :
  interp x y xi = Raise e → validate (length x) (length y) x xi = Raise e.
Proof.
  rewrite interp_unfold. unfold interpolate1.
  destruct (validate (length x) (length y) x xi) as [dx|e'] eqn:Hval; [|done].
  intros Hrun. exfalso.
  destruct (Nat.ltb_spec (length x) 3) as [Hn|Hn].
  { by rewrite validate_too_small in Hval. }
  destruct (decide (length y = length x)) as [Hy|Hy]; cycle 1.
  { by rewrite validate_mismatch in Hval. }
  destruct (any ((λ v, Qle_bool v 0) <$> diff x)) eqn:Hx.
  { rewrite Hy, validate_not_increasing in Hval; [done..|].
    intros Hinc%increasing_check. congruence. }
  apply increasing_check in Hx.
  assert (valid x y) as Hv by done.
  destruct (valid_ends x y Hv) as (lo & hi & Hlo & Hhi).
  destruct (any ((λ q, Qlt_bool q lo) <$> xi) || any ((λ q, Qlt_bool hi q) <$> xi))
    eqn:Hdom.
  { rewrite Hy, (validate_checked x xi lo hi), Hdom in Hval; done. }
  apply orb_false_iff in Hdom. apply (domain_check x xi lo hi Hlo Hhi) in Hdom.
  destruct (interp_ok x y xi Hv Hdom) as (s & top & _ & _ & Hok).
  rewrite interp_unfold in Hok. unfold interpolate1 in Hok. rewrite Hval in Hok.
  congruence.
Qed.

Lemma validb_spec (x y : list Q) : validb x y = true ↔ valid x y.
Proof.
  unfold validb. rewrite !andb_true_iff, negb_true_iff, increasing_check.
  rewrite Nat.leb_le, Nat.eqb_eq. split.
  - by intros [[??]?].
  - by intros [???].
Qed.

Lemma in_domainb_spec (x : list Q) (q : Q) : in_domainb x q = true ↔ in_domain x q.
Proof.
  unfold in_domainb, in_domain. split.
  - destruct (x !! 0%nat) as [lo|], (last x) as [hi|]; try discriminate.
    rewrite andb_true_iff, !Qle_bool_iff. intros [??]. by exists lo, hi.
  - intros (lo & hi & -> & -> & ? & ?).
    rewrite andb_true_iff, !Qle_bool_iff. done.
Qed.

Lemma all_in_domain (x xi : list Q) :
  forallb (in_domainb x) xi = true → Forall (in_domain x) xi.
Proof.
  rewrite forallb_forall, Forall_forall. intros Hall q Hq.
  apply in_domainb_spec, Hall. by apply list_elem_of_In.
Qed.

(** ** The claims *)

Lemma weight_unfold (m1 : list Q) (i : nat) :
  weight m1 i
  = Qabs (m1 !!! (i + 3)%nat - m1 !!! (i + 2)%nat) + Qabs (m1 !!! (i + 1)%nat - m1 !!! i).
Proof.
  unfold weight, gap.
  replace (S (i + 2)) with (i + 3)%nat by lia.
  replace (S i) with (i + 1)%nat by lia. reflexivity.
Qed.

Lemma weighted_unfold (m1 : list Q) (i : nat) :
  (gap m1 (i + 2) * m1 !!! (i + 1)%nat + gap m1 i * m1 !!! (i + 2)%nat) / weight m1 i
  = weighted m1 i.
Proof.
  unfold weighted. rewrite weight_unfold. unfold gap.
  replace (S (i + 2)) with (i + 3)%nat by lia.
  replace (S i) with (i + 1)%nat by lia. reflexivity.
Qed.

Lemma fitted_max_weight (x y : list Q) (s : spline) (top : Q) :
  fitted x y s top → max_weight (length x) (sp_m1 s) top.
Proof.
  intros Hs. split.
  - destruct (fitted_top_attained _ _ _ _ Hs) as (j & Hj & ->).
    exists j. by rewrite weight_unfold.
  - intros j Hj. rewrite <- weight_unfold. by apply (fitted_top_bound _ _ _ _ Hs).
Qed.

(** C1: for valid samples the derivatives are computed by the rule of
    lines 223-239: secant slopes extended by two extrapolated slopes at each
    end, [dm] the absolute differences of the extended slopes, and [b[i]] the
    weighted value exactly where [f1 + f2 > 1e-9 * max(f1 + f2)] and the
    default [m1[i+1]] elsewhere. *)
Theorem derivatives_follow_rule (x y : list Q) :
  valid x y → derivative_rule x y.
Proof.
  intros Hv. destruct (fit_ok x y Hv) as (s & top & Hfit & Hs).
  pose proof (valid_size x y Hv) as Hn.
  exists s, top. split; [done|]. cbv zeta.
  split; [split; [apply Hs | apply Hs]|].
  split.
  { rewrite (fitted_m1 _ _ _ _ Hs), length_extended, (fitted_m_length _ _ _ _ Hs).
    split; [lia | reflexivity]. }
  split; [by eapply fitted_max_weight|].
  split; [apply Hs|].
  intros i Hi. rewrite <- weight_unfold, <- weighted_unfold. split.
  - by apply (fitted_b_weighted _ _ _ _ Hs).
  - by apply (fitted_b_default _ _ _ _ Hs).
Qed.

Lemma derivatives_follow_rule_witness :
  valid [0; 1; 2] [0; 0; 1] ∧ derivative_rule [0; 1; 2] [0; 0; 1].
Proof.
  assert (valid [0; 1; 2] [0; 0; 1]) as Hv by (apply validb_spec; reflexivity).
  split; [exact Hv | exact (derivatives_follow_rule [0; 1; 2] [0; 0; 1] Hv)].
Defined.

(** [cubic'] is the derivative of [cubic]: the linear coefficient of the
    increment. *)
Lemma cubic_increment (y b c d t h : Q) :
  cubic y b c d (t + h) - cubic y b c d t
  == h * cubic' b c d t + h ^ 2 * (c + 3 * d * t + d * h).
Proof. unfold cubic, cubic'. ring. Qed.

(** Horner's scheme of line 248 evaluates the cubic of the segment. *)
Lemma horner_cubic (x y b c d : list Q) (q : Q) :
  let k := Z.to_nat (segment x q) in
  horner x y b c d q == cubic (y !!! k) (b !!! k) (c !!! k) (d !!! k) (q - x !!! k).
Proof. unfold horner, cubic. cbv zeta. ring. Qed.

Section Hermite.
Variables (y0 y1 b0 b1 dx : Q).
Hypothesis Hdx : 0 < dx.

Let m := (y1 - y0) / dx.
Let c := (3 * m - 2 * b0 - b1) / dx.
Let d := (b0 + b1 - 2 * m) / dx ^ 2.

Lemma hermite_left : cubic y0 b0 c d 0 == y0.
Proof. unfold cubic. ring. Qed.

Lemma hermite_right : cubic y0 b0 c d dx == y1.
Proof. unfold cubic, c, d, m. field. lra. Qed.

Lemma hermite_slope_left : cubic' b0 c d 0 == b0.
Proof. unfold cubic'. ring. Qed.

Lemma hermite_slope_right : cubic' b0 c d dx == b1.
Proof. unfold cubic', c, d, m. field. lra. Qed.
End Hermite.

(** C2: for valid samples and every segment [i], [c] and [d] are given by the
    formulas of lines 240-241, and the cubic [y_i + b_i t + c_i t^2 + d_i t^3]
    takes the values [y_i], [y_(i+1)] and the slopes [b_i], [b_(i+1)] at the
    two ends of the segment. *)
Theorem coefficients_follow_rule (x y : list Q) :
  valid x y → coefficient_rule x y.
Proof.
  intros Hv. destruct (fit_ok x y Hv) as (s & top & Hfit & Hs).
  destruct Hv as [Hn Hy Hx].
  exists s. split; [done|]. split; [apply Hs|]. split; [apply Hs|].
  intros i Hi. cbv zeta.
  pose proof (increasing_step x i Hx ltac:(lia)) as Hstep.
  assert (0 < x !!! S i - x !!! i) as Hdx by lra.
  rewrite (fitted_c _ _ _ _ Hs i Hi), (fitted_d _ _ _ _ Hs i Hi).
  rewrite (fitted_m _ _ _ _ Hs i Hi).
  split; [done|]. split; [done|].
  split; [apply hermite_left|].
  split; [by apply hermite_right|].
  split; [apply hermite_slope_left | by apply hermite_slope_right].
Qed.

Lemma coefficients_follow_rule_witness :
  valid [0; 1; 2] [0; 0; 1] ∧ coefficient_rule [0; 1; 2] [0; 0; 1].
Proof.
  assert (valid [0; 1; 2] [0; 0; 1]) as Hv by (apply validb_spec; reflexivity).
  split; [exact Hv | exact (coefficients_follow_rule [0; 1; 2] [0; 0; 1] Hv)].
Defined.

Section Segments.
Variables (x y : list Q).
Hypothesis Hv : valid x y.

(** Lines 243-245 select the largest knot that is not above the query,
    clamped to the last segment. *)
Lemma segment_largest (q : Q) :
  in_domain x q →
  ∃ i, largest_le x q i ∧ Z.to_nat (segment x q) = (i `min` (length x - 2))%nat.
Proof.
  intros (lo & hi & Hlo & Hhi & Hq1 & Hq2).
  destruct Hv as [Hn _ Hx].
  apply list_lookup_total_correct in Hlo.
  pose proof (searchsorted_right_le x q) as Hle.
  pose proof (searchsorted_right_largest x q 0 Hx ltac:(lia) ltac:(by rewrite Hlo)) as H1.
  exists (searchsorted_right x q - 1)%nat. split; [split; [lia | split]|].
  - apply searchsorted_right_below. lia.
  - intros j Hj Hjq. pose proof (searchsorted_right_largest x q j Hx Hj Hjq). lia.
  - unfold segment. lia.
Qed.

(** A knot is the largest knot not above itself. *)
Lemma largest_le_knot (q : Q) (i k : nat) :
  largest_le x q i → (k < length x)%nat → q == x !!! k → i = k.
Proof.
  intros (Hi & Hiq & Hmax) Hk Hq. destruct Hv as [_ _ Hx].
  assert (k ≤ i)%nat as Hki by (apply Hmax; [done | lra]).
  destruct (decide (k = i)) as [|Hne]; [done|].
  pose proof (increasing_lt x k i Hx ltac:(lia) Hi). lra.
Qed.

Lemma in_domain_knot (q : Q) (k : nat) :
  (k < length x)%nat → q == x !!! k → in_domain x q.
Proof.
  intros Hk Hq. destruct (valid_ends x y Hv) as (lo & hi & Hlo & Hhi).
  destruct Hv as [Hn _ Hx].
  exists lo, hi. split; [done|]. split; [done|].
  apply list_lookup_total_correct in Hlo.
  rewrite last_lookup in Hhi. apply list_lookup_total_correct in Hhi.
  pose proof (increasing_le x 0 k Hx ltac:(lia) Hk).
  pose proof (increasing_le x k (pred (length x)) Hx ltac:(lia) ltac:(lia)).
  rewrite <- Hlo, <- Hhi. split; lra.
Qed.
End Segments.

(** C3: for valid samples and queries inside the domain, the value returned
    for a query [q] is that of Horner's scheme on segment [k], where [k] is
    the largest index [i] with [x_i <= q], clamped to [n - 2]; [k] lies in
    [0 .. n-2], and [q = x_(n-1)] uses the last segment. *)
Theorem evaluator_selects_segment (x y xi : list Q) :
  valid x y → Forall (in_domain x) xi →
  ∃ s out, fit (length x) y (diff x) = Ok s ∧ interp x y xi = Ok out ∧
    ∀ j q, xi !! j = Some q →
      ∃ i k v,
        largest_le x q i ∧ k = (i `min` (length x - 2))%nat ∧
        (k ≤ length x - 2)%nat ∧
        (q == x !!! (length x - 1)%nat → k = (length x - 2)%nat) ∧
        out !! j = Some v ∧
        let t := q - x !!! k in
        v == ((sp_d s !!! k * t + sp_c s !!! k) * t + sp_b s !!! k) * t + y !!! k.
Proof.
  intros Hv Hxi. destruct (interp_ok x y xi Hv Hxi) as (s & top & Hfit & Hs & Hrun).
  exists s, (horner x y (sp_b s) (sp_c s) (sp_d s) <$> xi).
  split; [done|]. split; [done|].
  intros j q Hj.
  assert (in_domain x q) as Hq by (by eapply Forall_lookup_1).
  destruct (segment_largest x y Hv q Hq) as (i & Hi & Hk).
  exists i, (Z.to_nat (segment x q)), (horner x y (sp_b s) (sp_c s) (sp_d s) q).
  split; [done|]. split; [done|]. split; [lia|]. split.
  - intros Hlast. pose proof (valid_size x y Hv).
    rewrite (largest_le_knot x y Hv q i (length x - 1) Hi ltac:(lia) Hlast) in Hk. lia.
  - split; [by rewrite list_lookup_fmap, Hj|].
    unfold horner. cbv zeta. ring.
Qed.

Lemma evaluator_selects_segment_witness :
  valid [0; 1; 2] [0; 0; 1] ∧ Forall (in_domain [0; 1; 2]) [1 # 2; 2] ∧
  ∃ s out, fit 3 [0; 0; 1] (diff [0; 1; 2]) = Ok s ∧
    interp [0; 1; 2] [0; 0; 1] [1 # 2; 2] = Ok out ∧
    ∀ j q, [1 # 2; 2] !! j = Some q →
      ∃ i k v,
        largest_le [0; 1; 2] q i ∧ k = (i `min` 1)%nat ∧ (k ≤ 1)%nat ∧
        (q == 2 → k = 1%nat) ∧
        out !! j = Some v ∧
        let t := q - [0; 1; 2] !!! k in
        v == ((sp_d s !!! k * t + sp_c s !!! k) * t + sp_b s !!! k) * t
             + [0; 0; 1] !!! k.
Proof.
  assert (valid [0; 1; 2] [0; 0; 1]) as Hv by (apply validb_spec; reflexivity).
  assert (Forall (in_domain [0; 1; 2]) [1 # 2; 2]) as Hxi
    by (apply all_in_domain; reflexivity).
  split; [exact Hv|]. split; [exact Hxi|].
  exact (evaluator_selects_segment [0; 1; 2] [0; 0; 1] [1 # 2; 2] Hv Hxi).
Defined.

#[global] Instance cubic_proper :
  Proper (Qeq ==> Qeq ==> Qeq ==> Qeq ==> Qeq ==> Qeq) cubic.
Proof.
  intros y y' Hy b b' Hb c c' Hc d d' Hd t t' Ht. unfold cubic.
  by rewrite Hy, Hb, Hc, Hd, Ht.
Qed.

(** The spline passes through the samples: at a query equal to a knot the
    value is the ordinate of the knot. *)
Lemma horner_knot (x y : list Q) (s : spline) (top : Q) (q : Q) (k : nat) :
  valid x y → fitted x y s top → (k < length x)%nat → q == x !!! k →
  horner x y (sp_b s) (sp_c s) (sp_d s) q == y !!! k.
Proof.
  intros Hv Hs Hk Hq.
  pose proof (in_domain_knot x y Hv q k Hk Hq) as Hdom.
  destruct (segment_largest x y Hv q Hdom) as (i & Hi & Hseg).
  rewrite (largest_le_knot x y Hv q i k Hi Hk Hq) in Hseg.
  pose proof Hv as [Hn Hy Hx].
  destruct (decide (k = length x - 1)%nat) as [->|Hne].
  - (* the last knot: the right end of the last segment *)
    replace (_ `min` _)%nat with (length x - 2)%nat in Hseg by lia.
    rewrite horner_cubic. cbv zeta. rewrite Hseg.
    replace (length x - 1)%nat with (S (length x - 2)) in * by lia.
    pose proof (increasing_step x (length x - 2) Hx ltac:(lia)) as Hstep.
    assert (q - x !!! (length x - 2)%nat
            == x !!! S (length x - 2) - x !!! (length x - 2)%nat) as Ht by lra.
    rewrite Ht.
    rewrite (fitted_c _ _ _ _ Hs (length x - 2)), (fitted_d _ _ _ _ Hs (length x - 2)),
      (fitted_m _ _ _ _ Hs (length x - 2)) by lia.
    apply hermite_right. lra.
  - (* any other knot: the left end of its own segment *)
    replace (_ `min` _)%nat with k in Hseg by lia.
    unfold horner. cbv zeta. rewrite Hseg.
    assert (q - x !!! k == 0) as Ht by lra. rewrite Ht. ring.
Qed.

(** C4: queries at the knots return the samples.  [interpolate(x, y, x)]
    reproduces [y]; any query equal to a knot [x_k] yields [y_k]; queries at
    the first and the last abscissa yield [y[0]] and [y[-1]]. *)
Theorem interpolation_reproduces_samples (x y : list Q) :
  valid x y →
  (∃ out, interp x y x = Ok out ∧ Forall2 Qeq out y) ∧
  (∀ xi, Forall (in_domain x) xi →
     ∃ out, interp x y xi = Ok out ∧
       ∀ j q k, xi !! j = Some q → (k < length x)%nat → q == x !!! k →
         ∃ v, out !! j = Some v ∧ v == y !!! k) ∧
  (∃ first last_,
     interp x y [x !!! 0%nat; x !!! (length x - 1)%nat] = Ok [first; last_] ∧
     first == y !!! 0%nat ∧ last_ == y !!! (length x - 1)%nat).
Proof.
  intros Hv. pose proof Hv as [Hn Hy Hx].
  assert (∀ xi, Forall (in_domain x) xi →
     ∃ out, interp x y xi = Ok out ∧ length out = length xi ∧
       ∀ j q k, xi !! j = Some q → (k < length x)%nat → q == x !!! k →
         ∃ v, out !! j = Some v ∧ v == y !!! k) as Hknots.
  { intros xi Hxi. destruct (interp_ok x y xi Hv Hxi) as (s & top & _ & Hs & Hrun).
    eexists. split; [exact Hrun|]. split; [by rewrite length_fmap|].
    intros j q k Hj Hk Hq. eexists. split; [by rewrite list_lookup_fmap, Hj|].
    by eapply horner_knot. }
  assert (∀ k, (k < length x)%nat → in_domain x (x !!! k)) as Hdom.
  { intros k Hk. by apply (in_domain_knot x y Hv _ k). }
  split; [|split].
  - destruct (Hknots x) as (out & Hrun & Hlen & Hout).
    { apply Forall_lookup_2. intros k q Hk.
      pose proof (lookup_lt_Some _ _ _ Hk).
      apply list_lookup_total_correct in Hk as <-. by apply Hdom. }
    exists out. split; [done|].
    apply Forall2_same_length_lookup_2; [lia|].
    intros k v u Hv' Hu.
    pose proof (lookup_lt_Some _ _ _ Hu) as Hk. rewrite Hy in Hk.
    destruct (Hout k (x !!! k) k) as (v' & Hv'' & Heq);
      [by apply list_lookup_lookup_total_lt | done | reflexivity |].
    apply list_lookup_total_correct in Hu. by simplify_eq.
  - intros xi Hxi. destruct (Hknots xi Hxi) as (out & Hrun & _ & Hout). by exists out.
  - destruct (Hknots [x !!! 0%nat; x !!! (length x - 1)%nat])
      as (out & Hrun & Hlen & Hout).
    { repeat constructor; apply Hdom; lia. }
    destruct out as [|first [|last_ [|??]]]; try discriminate.
    exists first, last_. split; [done|].
    destruct (Hout 0%nat (x !!! 0%nat) 0%nat) as (? & [= <-] & ?);
      [done | lia | reflexivity |].
    destruct (Hout 1%nat (x !!! (length x - 1)%nat) (length x - 1)%nat)
      as (? & [= <-] & ?); [done | lia | reflexivity |].
    done.
Qed.

Lemma interpolation_reproduces_samples_witness :
  valid [0; 1; 2] [0; 0; 1] ∧
  (∃ out, interp [0; 1; 2] [0; 0; 1] [0; 1; 2] = Ok out ∧ Forall2 Qeq out [0; 0; 1]) ∧
  (∀ xi, Forall (in_domain [0; 1; 2]) xi →
     ∃ out, interp [0; 1; 2] [0; 0; 1] xi = Ok out ∧
       ∀ j q k, xi !! j = Some q → (k < 3)%nat → q == [0; 1; 2] !!! k →
         ∃ v, out !! j = Some v ∧ v == [0; 0; 1] !!! k) ∧
  (∃ first last_,
     interp [0; 1; 2] [0; 0; 1] [0; 2] = Ok [first; last_] ∧
     first == 0 ∧ last_ == 1).
Proof.
  assert (valid [0; 1; 2] [0; 0; 1]) as Hv by (apply validb_spec; reflexivity).
  split; [exact Hv|].
  exact (interpolation_reproduces_samples [0; 1; 2] [0; 0; 1] Hv).
Defined.

(** ** Error handling *)

Lemma preconditions_dec (x y xi : list Q) :
  {preconditions x y xi} + {¬ preconditions x y xi}.
Proof.
  destruct (validb x y) eqn:Hv.
  - apply validb_spec in Hv.
    destruct (forallb (in_domainb x) xi) eqn:Hxi.
    + left. split; [done | by apply all_in_domain].
    + right. intros [_ Hall]. apply not_true_iff_false in Hxi. apply Hxi.
      apply forallb_forall. intros q Hq. apply in_domainb_spec.
      eapply Forall_forall in Hall; [done|]. by apply list_elem_of_In.
  - right. intros [Hv' _]. apply validb_spec in Hv'. congruence.
Qed.

(** C5: on flat sequences the call raises [ValueError] exactly when a
    precondition is violated: fewer than three samples, lengths that differ,
    abscissas that do not increase strictly, or a query outside
    [x_0 .. x_(n-1)].  The checks run in this order, every failure is a
    failure of the checks of lines 206-221 (no slope or coefficient has been
    computed and there is no result), and queries equal to the first or to
    the last abscissa are accepted. *)
Theorem validation_errors (x y xi : list Q) :
  ((length x < 3)%nat → interp x y xi = Raise (ValueError "array too small")) ∧
  ((3 ≤ length x)%nat → length y ≠ length x →
   interp x y xi = Raise (ValueError "size of x-array must match data shape")) ∧
  ((3 ≤ length x)%nat → length y = length x → ¬ increasing x →
   interp x y xi = Raise (ValueError "x-axis not valid")) ∧
  (valid x y → ¬ Forall (in_domain x) xi →
   interp x y xi = Raise (ValueError "interpolation x-axis out of bounds")) ∧
  (preconditions x y xi ↔ ∃ out, interp x y xi = Ok out) ∧
  (¬ preconditions x y xi ↔ ∃ msg, interp x y xi = Raise (ValueError msg)) ∧
  (∀ e, interp x y xi = Raise e →
        validate (length x) (length y) x xi = Raise e) ∧
  (valid x y →
   in_domain x (x !!! 0%nat) ∧ in_domain x (x !!! (length x - 1)%nat)).
Proof.
  assert (∀ e, validate (length x) (length y) x xi = Raise e →
               interp x y xi = Raise e) as Hfail.
  { intros e He. rewrite interp_unfold. unfold interpolate1. by rewrite He. }
  assert ((length x < 3)%nat → interp x y xi = Raise (ValueError "array too small"))
    as H1 by (intros ?; by apply Hfail, validate_too_small).
  assert ((3 ≤ length x)%nat → length y ≠ length x →
          interp x y xi = Raise (ValueError "size of x-array must match data shape"))
    as H2 by (intros ??; by apply Hfail, validate_mismatch).
  assert ((3 ≤ length x)%nat → length y = length x → ¬ increasing x →
          interp x y xi = Raise (ValueError "x-axis not valid")) as H3.
  { intros ? Hy ?. apply Hfail. rewrite Hy. by apply validate_not_increasing. }
  assert (valid x y → ¬ Forall (in_domain x) xi →
          interp x y xi = Raise (ValueError "interpolation x-axis out of bounds"))
    as H4 by (intros ??; by apply Hfail, validate_out_of_bounds).
  assert (preconditions x y xi → ∃ out, interp x y xi = Ok out) as Hok.
  { intros [Hv Hxi]. destruct (interp_ok x y xi Hv Hxi) as (s & top & _ & _ & Hrun).
    eauto. }
  assert (¬ preconditions x y xi → ∃ msg, interp x y xi = Raise (ValueError msg))
    as Hraise.
  { intros Hpre.
    destruct (Nat.ltb_spec (length x) 3) as [Hn|Hn]; [eauto|].
    destruct (decide (length y = length x)) as [Hy|Hy]; [|eauto].
    destruct (any ((λ v, Qle_bool v 0) <$> diff x)) eqn:Hx.
    { eexists. apply H3; [done..|]. intros Hinc%increasing_check. congruence. }
    apply increasing_check in Hx. assert (valid x y) as Hv by done.
    eexists. apply H4; [done|]. intros Hxi. by apply Hpre. }
  do 4 (split; [done|]).
  split; [split; [done|]|].
  { intros [out Hout]. destruct (preconditions_dec x y xi) as [|Hpre]; [done|].
    destruct (Hraise Hpre) as [msg Hmsg]. congruence. }
  split; [split; [done|]|].
  { intros [msg Hmsg] Hpre. destruct (Hok Hpre) as [out Hout]. congruence. }
  split; [apply interp_raise_validate|].
  intros Hv. pose proof (valid_size x y Hv).
  split; [apply (in_domain_knot x y Hv _ 0%nat)
        | apply (in_domain_knot x y Hv _ (length x - 1)%nat)];
    (lia || reflexivity).
Qed.

(** C6: the example of the docstring.  The derivatives are
    [-1/2, 1/2, 3/2], the coefficients [c = 1/2, 1/2] and [d = 0, 0], and the
    values at [1/2] and [3/2] are [-1/8] and [3/8]. *)
Theorem docstring_example :
  ∃ s out,
    fit 3 [0; 0; 1] (diff [0; 1; 2]) = Ok s ∧
    interp [0; 1; 2] [0; 0; 1] [1 # 2; 3 # 2] = Ok out ∧
    Qred <$> sp_b s = [-1 # 2; 1 # 2; 3 # 2] ∧
    Qred <$> sp_c s = [1 # 2; 1 # 2] ∧
    Qred <$> sp_d s = [0; 0] ∧
    Qred <$> out = [-1 # 8; 3 # 8] ∧
    Forall2 Qeq out [-1 # 8; 3 # 8].
Proof.
  eexists _, _. split; [vm_compute; reflexivity|].
  split; [vm_compute; reflexivity|].
  repeat split; try reflexivity.
  repeat constructor.
Qed.

(** C10: the output has one value per query, in the order of the queries:
    the value at position [j] is the value at [t = x_new[j] - x_k] of the
    cubic of segment [k], the segment selected for [x_new[j]], with the
    coefficients that lines 223-241 compute from the samples; it is also
    what the call returns for the single query [x_new[j]].  Without queries
    the output is empty. *)
Theorem output_follows_queries (x y xi : list Q) :
  valid x y → Forall (in_domain x) xi →
  ∃ s out, fit (length x) y (diff x) = Ok s ∧
    interp x y xi = Ok out ∧ length out = length xi ∧
    (∀ j q, xi !! j = Some q →
       ∃ i k v,
         largest_le x q i ∧ k = (i `min` (length x - 2))%nat ∧
         out !! j = Some v ∧
         (let t := q - x !!! k in
          v == ((sp_d s !!! k * t + sp_c s !!! k) * t + sp_b s !!! k) * t + y !!! k) ∧
         interp x y [q] = Ok [v]) ∧
    interp x y [] = Ok [].
Proof.
  intros Hv Hxi.
  destruct (interp_ok x y xi Hv Hxi) as (s & top & Hfit & _ & Hrun).
  exists s, (horner x y (sp_b s) (sp_c s) (sp_d s) <$> xi).
  split; [done|]. split; [done|]. split; [by rewrite length_fmap|]. split.
  - intros j q Hj.
    assert (in_domain x q) as Hq by (by eapply Forall_lookup_1).
    destruct (segment_largest x y Hv q Hq) as (i & Hi & Hk).
    exists i, (Z.to_nat (segment x q)), (horner x y (sp_b s) (sp_c s) (sp_d s) q).
    split; [done|]. split; [done|].
    split; [by rewrite list_lookup_fmap, Hj|]. split.
    + unfold horner. cbv zeta. ring.
    + assert (Forall (in_domain x) [q]) as Hq1 by (by repeat constructor).
      destruct (interp_ok x y [q] Hv Hq1) as (s' & top' & Hfit' & _ & Hrun').
      rewrite Hfit in Hfit'. injection Hfit' as <-. exact Hrun'.
  - destruct (interp_ok x y [] Hv ltac:(constructor)) as (s' & top' & _ & _ & Hrun').
    done.
Qed.

Lemma output_follows_queries_witness :
  valid [0; 1; 2] [0; 0; 1] ∧ Forall (in_domain [0; 1; 2]) [3 # 2; 1 # 2; 2] ∧
  ∃ s out, fit 3 [0; 0; 1] (diff [0; 1; 2]) = Ok s ∧
    interp [0; 1; 2] [0; 0; 1] [3 # 2; 1 # 2; 2] = Ok out ∧
    length out = 3%nat ∧
    (∀ j q, [3 # 2; 1 # 2; 2] !! j = Some q →
       ∃ i k v,
         largest_le [0; 1; 2] q i ∧ k = (i `min` 1)%nat ∧
         out !! j = Some v ∧
         (let t := q - [0; 1; 2] !!! k in
          v == ((sp_d s !!! k * t + sp_c s !!! k) * t + sp_b s !!! k) * t
               + [0; 0; 1] !!! k) ∧
         interp [0; 1; 2] [0; 0; 1] [q] = Ok [v]) ∧
    interp [0; 1; 2] [0; 0; 1] [] = Ok [].
Proof.
  assert (valid [0; 1; 2] [0; 0; 1]) as Hv by (apply validb_spec; reflexivity).
  assert (Forall (in_domain [0; 1; 2]) [3 # 2; 1 # 2; 2]) as Hxi
    by (apply all_in_domain; reflexivity).
  split; [exact Hv|]. split; [exact Hxi|].
  exact (output_follows_queries [0; 1; 2] [0; 0; 1] [3 # 2; 1 # 2; 2] Hv Hxi).
Defined.

(** On the example of the docstring with the queries in the order
    [1.5, 0.5, 2] the values come out in that order: [3/8, -1/8, 1]. *)
Example output_order_example :
  ∃ u v w, interp [0; 1; 2] [0; 0; 1] [3 # 2; 1 # 2; 2] = Ok [u; v; w] ∧
    u == 3 # 8 ∧ v == - (1 # 8) ∧ w == 1.
Proof. do 3 eexists. split; [by vm_compute|]. by vm_compute. Qed.

(** ** Shape errors (lines 198-204) *)

(** A [y] of shape [(1, 3)] is answered with [NotImplementedError], not with
    [ValueError]. *)
Lemma two_dimensional_y_not_value_error :
  let x := array1 [0; 1; 2] in
  let y := {| shape := [1; 3]%nat; data := [0; 0; 1] |} in
  let xi := array1 [1 # 2] in
  interpolate x y xi (-1) None
  = Raise (NotImplementedError "implemented in C extension module") ∧
  ¬ shape_error_is_value_error.
Proof.
  split; [reflexivity|].
  intros Hclaim.
  destruct (Hclaim (array1 [0; 1; 2]) {| shape := [1; 3]%nat; data := [0; 0; 1] |}
              (array1 [1 # 2])) as [msg Hmsg].
  - right; left. cbn. lia.
  - discriminate Hmsg.
Qed.

(** C9, amended: a [y] that is not one-dimensional raises
    [NotImplementedError] (whatever [x], [x_new], [axis] and [out] are); with
    a one-dimensional [y] and the default [axis] and [out], an [x] or [x_new]
    that is not one-dimensional raises [ValueError].  Both happen before the
    checks of lines 206-221 and before any computation. *)
Theorem shape_errors (x y xi : ndarray) (axis : Z) (out : option ndarray) :
  (ndim y ≠ 1%nat →
   interpolate x y xi axis out
   = Raise (NotImplementedError "implemented in C extension module")) ∧
  (ndim y = 1%nat → ndim x ≠ 1%nat ∨ ndim xi ≠ 1%nat →
   interpolate x y xi (-1) None
   = Raise (ValueError "x-arrays must be one dimensional")).
Proof.
  split.
  - intros Hy. unfold interpolate.
    destruct (Nat.eqb_spec (ndim y) 1); [done|].
    by rewrite !orb_true_r.
  - intros Hy Hx. unfold interpolate. rewrite Hy. cbn [Z.eqb Pos.eqb negb orb Nat.eqb].
    rewrite bool_decide_eq_false_2 by (by intros ?).
    destruct Hx as [Hx|Hx].
    + by destruct (Nat.eqb_spec (ndim x) 1).
    + destruct (Nat.eqb_spec (ndim xi) 1); [done|]. by rewrite orb_true_r.
Qed.

(** ** Overshoot *)

(** Strictly increasing ordinates with slopes 1000, 1000, 1, 2: half-way
    between [x_2 = 2] and [x_3 = 3] the value is 2125.25, above
    [y_3 = 2001] by more than a hundred times the rise of the segment. *)
Lemma overshoot_on_monotonic_data :
  let x := [0; 1; 2; 3; 4] in
  let y := [0; 1000; 2000; 2001; 2003] in
  valid x y ∧ increasing y ∧
  (∃ v, interp x y [5 # 2] = Ok [v] ∧ v == 17002001 # 8000 ∧
        Qmax (y !!! 2%nat) (y !!! 3%nat) + 100 < v) ∧
  ¬ no_overshoot 100.
Proof.
  cbv zeta.
  assert (valid [0; 1; 2; 3; 4] [0; 1000; 2000; 2001; 2003]) as Hv
    by (apply validb_spec; reflexivity).
  assert (increasing [0; 1000; 2000; 2001; 2003]) as Hy
    by (apply increasing_check; reflexivity).
  assert (∃ v, interp [0; 1; 2; 3; 4] [0; 1000; 2000; 2001; 2003] [5 # 2] = Ok [v] ∧
               v == 17002001 # 8000 ∧
               Qmax ([0; 1000; 2000; 2001; 2003] !!! 2%nat)
                    ([0; 1000; 2000; 2001; 2003] !!! 3%nat) + 100 < v)
    as (v & Hrun & Hval & Hover).
  { eexists. split; [vm_compute; reflexivity|]. split; vm_compute; reflexivity. }
  split; [done|]. split; [done|]. split; [by exists v|].
  intros Hclaim.
  destruct (Hclaim [0; 1; 2; 3; 4] [0; 1000; 2000; 2001; 2003] 2%nat (5 # 2) v)
    as [_ Hup];
    [done | by left | cbn; lia | reflexivity | reflexivity | done |].
  revert Hup. by apply Qlt_not_le.
Qed.

Section Bounded.
Variables (y0 y1 b0 b1 dx t : Q).
Hypothesis Hdx : 0 < dx.
Hypothesis Ht : 0 <= t ∧ t <= dx.

Let m := (y1 - y0) / dx.
Let c := (3 * m - 2 * b0 - b1) / dx.
Let d := (b0 + b1 - 2 * m) / dx ^ 2.

(** The rise above the left ordinate and the distance to the right one. *)
Lemma cubic_above_left :
  cubic y0 b0 c d t - y0
  == (b0 * (t * (dx - t) ^ 2) + (3 * m - b1) * (t ^ 2 * (dx - t)) + m * t ^ 3) / dx ^ 2.
Proof. unfold cubic, c, d. field. lra. Qed.

Lemma cubic_below_right :
  y1 - cubic y0 b0 c d t
  == ((3 * m - b0) * (t * (dx - t) ^ 2) + m * (dx - t) ^ 3 + b1 * (t ^ 2 * (dx - t)))
     / dx ^ 2.
Proof. unfold cubic, c, d, m. field. lra. Qed.

Lemma weights_nonneg :
  0 <= t * (dx - t) ^ 2 ∧ 0 <= t ^ 2 * (dx - t) ∧ 0 <= t ^ 3 ∧ 0 <= (dx - t) ^ 3
  ∧ 0 < dx ^ 2.
Proof.
  destruct Ht as [Ht0 Ht1]. assert (0 <= dx - t) as Hs by lra.
  repeat split; try (apply Qpower_0_lt; lra);
    repeat first [apply Qmult_le_0_compat | apply Qpower_0_le]; lra.
Qed.

Lemma div_nonneg (a b : Q) : 0 <= a → 0 < b → 0 <= a / b.
Proof. intros Ha Hb. apply Qle_shift_div_l; [done | lra]. Qed.

Lemma div_nonpos (a b : Q) : a <= 0 → 0 < b → a / b <= 0.
Proof. intros Ha Hb. apply Qle_shift_div_r; [done | lra]. Qed.

(** With both end slopes between 0 and three times the secant slope the cubic
    stays between the two ordinates. *)
Lemma cubic_between_rising :
  0 <= b0 ∧ b0 <= 3 * m → 0 <= b1 ∧ b1 <= 3 * m →
  y0 <= cubic y0 b0 c d t ∧ cubic y0 b0 c d t <= y1.
Proof.
  intros [Hb0 Hb0'] [Hb1 Hb1'].
  destruct weights_nonneg as (W1 & W2 & W3 & W4 & W5).
  assert (0 <= m) as Hm by lra.
  pose proof cubic_above_left as Hl. pose proof cubic_below_right as Hr.
  split.
  - assert (0 <= cubic y0 b0 c d t - y0) as Hrise; [|lra].
    rewrite Hl. apply div_nonneg; [|done].
    pose proof (Qmult_le_0_compat _ _ Hb0 W1).
    pose proof (Qmult_le_0_compat (3 * m - b1) _ ltac:(lra) W2).
    pose proof (Qmult_le_0_compat _ _ Hm W3). lra.
  - assert (0 <= y1 - cubic y0 b0 c d t) as Hrest; [|lra].
    rewrite Hr. apply div_nonneg; [|done].
    pose proof (Qmult_le_0_compat (3 * m - b0) _ ltac:(lra) W1).
    pose proof (Qmult_le_0_compat _ _ Hm W4).
    pose proof (Qmult_le_0_compat _ _ Hb1 W2). lra.
Qed.

Lemma cubic_between_falling :
  3 * m <= b0 ∧ b0 <= 0 → 3 * m <= b1 ∧ b1 <= 0 →
  y1 <= cubic y0 b0 c d t ∧ cubic y0 b0 c d t <= y0.
Proof.
  intros [Hb0' Hb0] [Hb1' Hb1].
  destruct weights_nonneg as (W1 & W2 & W3 & W4 & W5).
  assert (0 <= - m) as Hm by lra.
  pose proof cubic_above_left as Hl. pose proof cubic_below_right as Hr.
  split.
  - assert (y1 - cubic y0 b0 c d t <= 0) as Hrest; [|lra].
    rewrite Hr. apply div_nonpos; [|done].
    pose proof (Qmult_le_0_compat (b0 - 3 * m) _ ltac:(lra) W1).
    pose proof (Qmult_le_0_compat _ _ Hm W4).
    pose proof (Qmult_le_0_compat (- b1) _ ltac:(lra) W2). lra.
  - assert (cubic y0 b0 c d t - y0 <= 0) as Hrise; [|lra].
    rewrite Hl. apply div_nonpos; [|done].
    pose proof (Qmult_le_0_compat (- b0) _ ltac:(lra) W1).
    pose proof (Qmult_le_0_compat (b1 - 3 * m) _ ltac:(lra) W2).
    pose proof (Qmult_le_0_compat _ _ Hm W3). lra.
Qed.
End Bounded.

(** A query strictly inside segment [i] is evaluated on segment [i]. *)
Lemma segment_interior (x y : list Q) (i : nat) (q : Q) :
  valid x y → (S i < length x)%nat → x !!! i < q → q < x !!! S i →
  in_domain x q ∧ Z.to_nat (segment x q) = i.
Proof.
  intros Hv Hi Hlo Hhi. pose proof Hv as [Hn _ Hx].
  assert (in_domain x q) as Hdom.
  { destruct (valid_ends x y Hv) as (lo & hi & Hlo' & Hhi').
    exists lo, hi. split; [done|]. split; [done|].
    apply list_lookup_total_correct in Hlo'.
    rewrite last_lookup in Hhi'. apply list_lookup_total_correct in Hhi'.
    pose proof (increasing_le x 0 i Hx ltac:(lia) ltac:(lia)).
    pose proof (increasing_le x (S i) (pred (length x)) Hx ltac:(lia) ltac:(lia)).
    rewrite <- Hlo', <- Hhi'. split; lra. }
  split; [done|].
  destruct (segment_largest x y Hv q Hdom) as (i' & (Hi' & Hle & Hmax) & ->).
  assert (i ≤ i')%nat by (apply Hmax; [lia | lra]).
  destruct (decide (i' ≤ i)%nat); [lia|].
  pose proof (increasing_le x (S i) i' Hx ltac:(lia) Hi'). lra.
Qed.

(** C8, amended: monotonic ordinates alone do not prevent overshoot.  For
    valid samples and a query strictly between [x_i] and [x_(i+1)], the value
    lies between [y_i] and [y_(i+1)] (without any tolerance) whenever the two
    derivatives [b_i] and [b_(i+1)] have the sign of the secant slope [m_i]
    and at most three times its size. *)
Theorem no_overshoot_with_bounded_derivatives (x y : list Q) (i : nat) (q : Q) :
  valid x y → (S i < length x)%nat → x !!! i < q → q < x !!! S i →
  ∃ s v, fit (length x) y (diff x) = Ok s ∧ interp x y [q] = Ok [v] ∧
    let m := sp_m s !!! i in
    let b0 := sp_b s !!! i in
    let b1 := sp_b s !!! S i in
    (0 <= b0 ∧ b0 <= 3 * m) ∧ (0 <= b1 ∧ b1 <= 3 * m) ∨
    (3 * m <= b0 ∧ b0 <= 0) ∧ (3 * m <= b1 ∧ b1 <= 0) →
    Qmin (y !!! i) (y !!! S i) <= v ∧ v <= Qmax (y !!! i) (y !!! S i).
Proof.
  intros Hv Hi Hlo Hhi.
  destruct (segment_interior x y i q Hv Hi Hlo Hhi) as [Hdom Hseg].
  destruct (interp_ok x y [q] Hv ltac:(by repeat constructor))
    as (s & top & Hfit & Hs & Hrun).
  exists s, (horner x y (sp_b s) (sp_c s) (sp_d s) q).
  split; [done|]. split; [done|]. cbv zeta.
  pose proof (valid_increasing x y Hv) as Hx.
  pose proof (increasing_step x i Hx Hi) as Hstep.
  rewrite horner_cubic. cbv zeta. rewrite Hseg.
  rewrite (fitted_c _ _ _ _ Hs i), (fitted_d _ _ _ _ Hs i), (fitted_m _ _ _ _ Hs i) by lia.
  pose proof (Q.le_min_l (y !!! i) (y !!! S i)) as Hmin_l.
  pose proof (Q.le_min_r (y !!! i) (y !!! S i)) as Hmin_r.
  pose proof (Q.le_max_l (y !!! i) (y !!! S i)) as Hmax_l.
  pose proof (Q.le_max_r (y !!! i) (y !!! S i)) as Hmax_r.
  intros [[Hb0 Hb1] | [Hb0 Hb1]].
  - destruct (cubic_between_rising (y !!! i) (y !!! S i) (sp_b s !!! i)
                (sp_b s !!! S i) (x !!! S i - x !!! i) (q - x !!! i))
      as [Hl Hr]; [lra | split; lra | done | done |].
    split; [exact (Qle_trans _ _ _ Hmin_l Hl) | exact (Qle_trans _ _ _ Hr Hmax_r)].
  - destruct (cubic_between_falling (y !!! i) (y !!! S i) (sp_b s !!! i)
                (sp_b s !!! S i) (x !!! S i - x !!! i) (q - x !!! i))
      as [Hl Hr]; [lra | split; lra | done | done |].
    split; [exact (Qle_trans _ _ _ Hmin_r Hl) | exact (Qle_trans _ _ _ Hr Hmax_l)].
Qed.

Lemma no_overshoot_with_bounded_derivatives_witness :
  valid [0; 1; 2] [0; 1; 3] ∧ (1 < 3)%nat ∧
  [0; 1; 2] !!! 0%nat < 1 # 2 ∧ 1 # 2 < [0; 1; 2] !!! 1%nat ∧
  ∃ s v, fit 3 [0; 1; 3] (diff [0; 1; 2]) = Ok s ∧
    interp [0; 1; 2] [0; 1; 3] [1 # 2] = Ok [v] ∧
    let m := sp_m s !!! 0%nat in
    let b0 := sp_b s !!! 0%nat in
    let b1 := sp_b s !!! 1%nat in
    (0 <= b0 ∧ b0 <= 3 * m) ∧ (0 <= b1 ∧ b1 <= 3 * m) ∨
    (3 * m <= b0 ∧ b0 <= 0) ∧ (3 * m <= b1 ∧ b1 <= 0) →
    Qmin ([0; 1; 3] !!! 0%nat) ([0; 1; 3] !!! 1%nat) <= v ∧
    v <= Qmax ([0; 1; 3] !!! 0%nat) ([0; 1; 3] !!! 1%nat).
Proof.
  assert (valid [0; 1; 2] [0; 1; 3]) as Hv by (apply validb_spec; reflexivity).
  split; [exact Hv|]. split; [lia|]. split; [reflexivity|]. split; [reflexivity|].
  apply (no_overshoot_with_bounded_derivatives [0; 1; 2] [0; 1; 3] 0 (1 # 2) Hv);
    [cbn; lia | reflexivity | reflexivity].
Defined.

(** The condition of the amended claim is met by the samples of the witness:
    there [m_0 = 1], [b_0 = 1/2] and [b_1 = 3/2]. *)
Example bounded_derivatives_example :
  ∃ s, fit 3 [0; 1; 3] (diff [0; 1; 2]) = Ok s ∧
    (0 <= sp_b s !!! 0%nat ∧ sp_b s !!! 0%nat <= 3 * sp_m s !!! 0%nat) ∧
    (0 <= sp_b s !!! 1%nat ∧ sp_b s !!! 1%nat <= 3 * sp_m s !!! 0%nat).
Proof.
  eexists. split; [vm_compute; reflexivity|].
  repeat split; vm_compute; discriminate.
Qed.

(** ** Equal slopes *)

(** The model registers a division by zero, and nothing else, as
    [FloatingPointError]. *)
Lemma div1_zero (a b : Q) : div1 (a, b) = Raise FloatingPointError ↔ b == 0.
Proof.
  unfold div1. cbn. destruct (Qeq_bool b 0) eqn:E.
  - apply Qeq_bool_iff in E. done.
  - apply Qeq_bool_false in E. split; [discriminate | done].
Qed.

Section EqualSlopes.
Variables (n : nat) (m : list Q) (a : Q).
Hypothesis Hn : (3 ≤ n)%nat.
Hypothesis Hm : length m = (n - 1)%nat.
Hypothesis Hconst : ∀ i, (i < n - 1)%nat → m !!! i == a.



End EqualSlopes.



(** The samples of the witness lie on the line of slope 1 through the
    origin. *)
Example line_example (i : nat) :
  (i < 5)%nat →
  [0; 1; 2; 3; 4] !!! i
  == [0; 1; 2; 3; 4] !!! 0%nat + 1 * ([0; 1; 2; 3; 4] !!! i - [0; 1; 2; 3; 4] !!! 0%nat).
Proof. intros Hi. ring. Qed.

(** They are one apart, which is more than [min_spacing]. *)
Example spacing_example (i : nat) :
  (i < 5 - 1)%nat →
  min_spacing <= [0; 1; 2; 3; 4] !!! S i - [0; 1; 2; 3; 4] !!! i.
Proof.
  intros Hi. destruct i as [|[|[|[|i]]]]; [by vm_compute..|lia].
Qed.

(** ** The same samples in binary64 *)

(** The binary64 reading agrees with the docstring on its example. *)
Example docstring_example64 :
  F64.interpolate1 3 3 F64.docstring_x F64.docstring_y F64.docstring_queries
  = Ok F64.docstring_values.
Proof. by vm_compute. Qed.

(** The square of [2^-537] is the least positive binary64 number; the square
    of [2^-538] is rounded to zero. *)
Example square_underflow64 :
  PrimFloat.eqb (F64.square F64.least_spacing) PrimFloat.zero = false ∧
  PrimFloat.eqb (F64.square F64.lost_spacing) PrimFloat.zero = true.
Proof. by vm_compute. Qed.


(** ** Further properties: every outcome of a call *)

Lemma validate_raises_value_error (x xi : list Q) (ny : nat) (e : exn) :
  validate (length x) ny x xi = Raise e → ∃ msg, e = ValueError msg.
Proof.
  destruct (Nat.ltb_spec (length x) 3) as [Hn|Hn].
  { rewrite validate_too_small by done. intros [= <-]. eauto. }
  destruct (decide (ny = length x)) as [->|Hny]; cycle 1.
  { rewrite validate_mismatch by done. intros [= <-]. eauto. }
  destruct (any ((λ v, Qle_bool v 0) <$> diff x)) eqn:Hx.
  { rewrite validate_not_increasing; [intros [= <-]; eauto | done |].
    intros Hinc%increasing_check. congruence. }
  apply increasing_check in Hx.
  destruct (valid_ends x x) as (lo & hi & Hlo & Hhi); [done|].
  rewrite (validate_checked x xi lo hi) by done.
  destruct (_ || _); [intros [= <-]; eauto | discriminate].
Qed.

Lemma one_dimensional_array (a : ndarray) :
  ndim a = 1%nat → well_formed a → a = array1 (data a).
Proof.
  destruct a as [[|k [|??]] d]; try discriminate. intros _ Hwf.
  unfold well_formed in Hwf. cbn in Hwf. unfold array1. cbn. f_equal. f_equal. lia.
Qed.

Lemma unsupported_dec (y : ndarray) (axis : Z) (out : option ndarray) :
  {unsupported y axis out} + {¬ unsupported y axis out}.
Proof.
  unfold unsupported.
  destruct (decide (axis = (-1)%Z)) as [->|]; [|by left; left].
  destruct out as [o|]; [by left; right; left|].
  destruct (decide (ndim y = 1%nat)) as [Hy|]; [|by left; right; right].
  right. intros [?|[?|?]]; done.
Qed.

Lemma accepted_dec (x y xi : ndarray) : {accepted x y xi} + {¬ accepted x y xi}.
Proof.
  unfold accepted.
  destruct (decide (ndim x = 1%nat)); [|right; by intros (? & _)].
  destruct (decide (ndim xi = 1%nat)); [|right; by intros (_ & ? & _)].
  destruct (preconditions_dec (data x) (data y) (data xi));
    [by left | right; by intros (_ & _ & ?)].
Qed.

(** X1: the three outcomes of a call on well-formed arrays.  A non-default
    [axis] or [out], or a [y] that is not one-dimensional, raises
    [NotImplementedError] whatever the other arguments are; otherwise a
    failed check raises [ValueError]; otherwise the call returns one value
    per query.  No [IndexError] can escape. *)
Theorem interpolate_outcomes (x y xi : ndarray) (axis : Z) (out : option ndarray) :
  well_formed x → well_formed y → well_formed xi →
  (unsupported y axis out →
   interpolate x y xi axis out
   = Raise (NotImplementedError "implemented in C extension module")) ∧
  (¬ unsupported y axis out → ¬ accepted x y xi →
   ∃ msg, interpolate x y xi axis out = Raise (ValueError msg)) ∧
  (¬ unsupported y axis out → accepted x y xi →
   ∃ values, interpolate x y xi axis out = Ok values ∧
             length values = length (data xi)) ∧
  interpolate x y xi axis out ≠ Raise IndexError.
Proof.
  intros Hx Hy Hxi.
  assert (unsupported y axis out →
          interpolate x y xi axis out
          = Raise (NotImplementedError "implemented in C extension module")) as H1.
  { intros Hun. unfold interpolate.
    destruct (Z.eqb_spec axis (-1)) as [->|]; [|done]. cbn [negb orb].
    destruct out as [o|]; [done|]. rewrite bool_decide_eq_false_2 by (by intros ?).
    destruct (Nat.eqb_spec (ndim y) 1) as [Hy1|]; [|done].
    by destruct Hun as [?|[?|?]]. }
  assert (¬ unsupported y axis out → axis = (-1)%Z ∧ out = None ∧ ndim y = 1%nat) as Hsup.
  { intros Hun. unfold unsupported in Hun.
    destruct (decide (axis = (-1)%Z)); [|by destruct Hun; left].
    destruct out; [by destruct Hun; right; left|].
    destruct (decide (ndim y = 1%nat)); [done | by destruct Hun; right; right]. }
  assert (¬ unsupported y axis out → ndim x = 1%nat → ndim xi = 1%nat →
          interpolate x y xi axis out = interp (data x) (data y) (data xi)) as Hflat.
  { intros (-> & -> & Hy1)%Hsup Hx1 Hxi1. unfold interp.
    by rewrite <- !one_dimensional_array. }
  assert (¬ unsupported y axis out → ¬ accepted x y xi →
          ∃ msg, interpolate x y xi axis out = Raise (ValueError msg)) as H2.
  { intros Hun Hacc. pose proof (Hsup Hun) as (-> & -> & Hy1).
    destruct (decide (ndim x = 1%nat)) as [Hx1|Hx1]; cycle 1.
    { eexists. unfold interpolate. rewrite Hy1.
      cbn [Z.eqb Pos.eqb negb orb Nat.eqb].
      rewrite bool_decide_eq_false_2 by (by intros ?).
      by destruct (Nat.eqb_spec (ndim x) 1). }
    destruct (decide (ndim xi = 1%nat)) as [Hxi1|Hxi1]; cycle 1.
    { eexists. unfold interpolate. rewrite Hy1, Hx1.
      cbn [Z.eqb Pos.eqb negb orb Nat.eqb].
      rewrite bool_decide_eq_false_2 by (by intros ?).
      by destruct (Nat.eqb_spec (ndim xi) 1). }
    rewrite (Hflat Hun Hx1 Hxi1).
    destruct (interp (data x) (data y) (data xi)) as [values|e] eqn:Hrun.
    - destruct Hacc. split; [done|]. split; [done|].
      destruct (preconditions_dec (data x) (data y) (data xi)) as [|Hpre]; [done|].
      exfalso.
      destruct (Nat.ltb_spec (length (data x)) 3) as [Hn|Hn].
      { pose proof (validate_too_small (length (data y)) (data x) (data xi) Hn) as Hval.
        rewrite interp_unfold in Hrun. unfold interpolate1 in Hrun.
        by rewrite Hval in Hrun. }
      rewrite interp_unfold in Hrun. unfold interpolate1 in Hrun.
      destruct (validate _ _ _ _) as [dx|e] eqn:Hval; [|done].
      destruct (decide (length (data y) = length (data x))) as [Hlen|Hlen]; cycle 1.
      { by rewrite validate_mismatch in Hval. }
      destruct (any ((λ v, Qle_bool v 0) <$> diff (data x))) eqn:Hinc.
      { rewrite Hlen, validate_not_increasing in Hval; [done..|].
        intros Hi%increasing_check. congruence. }
      apply increasing_check in Hinc.
      assert (valid (data x) (data y)) as Hv by done.
      assert (¬ Forall (in_domain (data x)) (data xi)) as Hdom
        by (intros ?; by apply Hpre).
      by rewrite validate_out_of_bounds in Hval.
    - apply interp_raise_validate, validate_raises_value_error in Hrun as [msg ->].
      eauto. }
  assert (¬ unsupported y axis out → accepted x y xi →
          ∃ values, interpolate x y xi axis out = Ok values ∧
                    length values = length (data xi)) as H3.
  { intros Hun (Hx1 & Hxi1 & Hv & Hdom). rewrite (Hflat Hun Hx1 Hxi1).
    destruct (interp_ok _ _ _ Hv Hdom) as (s & top & _ & _ & ->).
    eexists. split; [done|]. by rewrite length_fmap. }
  do 3 (split; [done|]).
  destruct (unsupported_dec y axis out) as [Hun|Hun].
  { by rewrite (H1 Hun). }
  destruct (accepted_dec x y xi) as [Hacc|Hacc].
  - by destruct (H3 Hun Hacc) as (values & -> & _).
  - by destruct (H2 Hun Hacc) as (msg & ->).
Qed.

Lemma interpolate_outcomes_witness :
  well_formed (array1 [0; 1; 2]) ∧
  well_formed {| shape := [1; 3]%nat; data := [0; 0; 1] |} ∧
  well_formed (array1 [1 # 2]) ∧
  interpolate (array1 [0; 1; 2]) {| shape := [1; 3]%nat; data := [0; 0; 1] |}
    (array1 [1 # 2]) 0 None ≠ Raise IndexError.
Proof.
  assert (well_formed (array1 [0; 1; 2])) as Hx by (vm_compute; reflexivity).
  assert (well_formed {| shape := [1; 3]%nat; data := [0; 0; 1] |}) as Hy
    by (vm_compute; reflexivity).
  assert (well_formed (array1 [1 # 2])) as Hxi by (vm_compute; reflexivity).
  do 3 (split; [done|]).
  exact (proj2 (proj2 (proj2
    (interpolate_outcomes _ _ _ 0 None Hx Hy Hxi)))).
Defined.

(** ** Further properties: the interpolant as a piecewise cubic *)

(** A query in [x_i, x_(i+1)) is evaluated on segment [i]. *)
Lemma segment_left_closed (x y : list Q) (i : nat) (q : Q) :
  valid x y → (S i < length x)%nat → x !!! i <= q → q < x !!! S i →
  in_domain x q ∧ Z.to_nat (segment x q) = i.
Proof.
  intros Hv Hi Hlo Hhi. pose proof Hv as [Hn _ Hx].
  assert (in_domain x q) as Hdom.
  { destruct (valid_ends x y Hv) as (lo & hi & Hlo' & Hhi').
    exists lo, hi. split; [done|]. split; [done|].
    apply list_lookup_total_correct in Hlo'.
    rewrite last_lookup in Hhi'. apply list_lookup_total_correct in Hhi'.
    pose proof (increasing_le x 0 i Hx ltac:(lia) ltac:(lia)).
    pose proof (increasing_le x (S i) (pred (length x)) Hx ltac:(lia) ltac:(lia)).
    rewrite <- Hlo', <- Hhi'. split; lra. }
  split; [done|].
  destruct (segment_largest x y Hv q Hdom) as (i' & (Hi' & Hle & Hmax) & ->).
  assert (i ≤ i')%nat by (by apply Hmax; [lia|]).
  destruct (decide (i' ≤ i)%nat); [lia|].
  pose proof (increasing_le x (S i) i' Hx ltac:(lia) Hi'). lra.
Qed.

(** On the closed segment [x_i, x_(i+1)] the value of the spline is that of
    the cubic of segment [i]; at the right knot the next segment takes over
    with the same value. *)
Lemma horner_on_segment (x y : list Q) (s : spline) (top : Q) (i : nat) (q : Q) :
  valid x y → fitted x y s top →
  (S i < length x)%nat → x !!! i <= q → q <= x !!! S i →
  horner x y (sp_b s) (sp_c s) (sp_d s) q
  == cubic (y !!! i) (sp_b s !!! i) (sp_c s !!! i) (sp_d s !!! i) (q - x !!! i).
Proof.
  intros Hv Hs Hi Hlo Hhi.
  destruct (Qlt_le_dec q (x !!! S i)) as [Hlt|Hge].
  - destruct (segment_left_closed x y i q Hv Hi Hlo Hlt) as [_ Hseg].
    rewrite horner_cubic. cbv zeta. by rewrite Hseg.
  - assert (q == x !!! S i) as Hq by lra.
    rewrite (horner_knot x y s top q (S i) Hv Hs Hi Hq).
    pose proof (increasing_step x i (valid_increasing x y Hv) Hi) as Hstep.
    assert (q - x !!! i == x !!! S i - x !!! i) as Ht by lra. rewrite Ht.
    rewrite (fitted_c _ _ _ _ Hs i), (fitted_d _ _ _ _ Hs i), (fitted_m _ _ _ _ Hs i)
      by lia.
    symmetry. apply hermite_right. lra.
Qed.

(** X2: the interpolant is the piecewise cubic.  For valid samples and a
    query in the closed interval between [x_i] and [x_(i+1)], the returned
    value is [y_i + b_i t + c_i t^2 + d_i t^3] at [t = q - x_i]; at a knot the
    cubics of the two adjoining segments agree, so the interpolant is
    continuous. *)
Theorem value_on_segment (x y : list Q) (i : nat) (q : Q) :
  valid x y → (S i < length x)%nat → x !!! i <= q → q <= x !!! S i →
  ∃ s v, fit (length x) y (diff x) = Ok s ∧ interp x y [q] = Ok [v] ∧
    v == cubic (y !!! i) (sp_b s !!! i) (sp_c s !!! i) (sp_d s !!! i) (q - x !!! i).
Proof.
  intros Hv Hi Hlo Hhi.
  assert (in_domain x q) as Hdom.
  { destruct (Qlt_le_dec q (x !!! S i)) as [Hlt|Hge].
    - by destruct (segment_left_closed x y i q Hv Hi Hlo Hlt).
    - apply (in_domain_knot x y Hv q (S i) Hi). lra. }
  destruct (interp_ok x y [q] Hv ltac:(by repeat constructor))
    as (s & top & Hfit & Hs & Hrun).
  exists s, (horner x y (sp_b s) (sp_c s) (sp_d s) q).
  split; [done|]. split; [done|]. by eapply horner_on_segment.
Qed.

Lemma value_on_segment_witness :
  valid [0; 1; 2] [0; 0; 1] ∧ (1 < 3)%nat ∧
  [0; 1; 2] !!! 0%nat <= 1 ∧ 1 <= [0; 1; 2] !!! 1%nat ∧
  ∃ s v, fit 3 [0; 0; 1] (diff [0; 1; 2]) = Ok s ∧
    interp [0; 1; 2] [0; 0; 1] [1] = Ok [v] ∧
    v == cubic ([0; 0; 1] !!! 0%nat) (sp_b s !!! 0%nat) (sp_c s !!! 0%nat)
           (sp_d s !!! 0%nat) (1 - [0; 1; 2] !!! 0%nat).
Proof.
  assert (valid [0; 1; 2] [0; 0; 1]) as Hv by (apply validb_spec; reflexivity).
  split; [exact Hv|]. split; [lia|].
  split; [by vm_compute|]. split; [by vm_compute|].
  apply (value_on_segment [0; 1; 2] [0; 0; 1] 0 1 Hv);
    [cbn; lia | by vm_compute | by vm_compute].
Defined.

(** ** Further properties: the derivatives and the neighbouring slopes *)

Section Mean.
Variables (f1 f2 a b : Q).
Hypothesis Hf1 : 0 <= f1.
Hypothesis Hf2 : 0 <= f2.
Hypothesis Hsum : 0 < f1 + f2.

(** A mean with non-negative weights lies between the two values. *)
Lemma mean_between :
  Qmin a b <= (f1 * a + f2 * b) / (f1 + f2) ∧
  (f1 * a + f2 * b) / (f1 + f2) <= Qmax a b.
Proof.
  pose proof (Q.le_min_l a b) as Hla. pose proof (Q.le_min_r a b) as Hlb.
  pose proof (Q.le_max_l a b) as Hua. pose proof (Q.le_max_r a b) as Hub.
  revert Hla Hlb Hua Hub. generalize (Qmin a b) (Qmax a b). intros lo hi ????.
  split.
  - assert (0 <= (f1 * a + f2 * b) / (f1 + f2) - lo) as Hrise; [|lra].
    assert ((f1 * a + f2 * b) / (f1 + f2) - lo
            == (f1 * (a - lo) + f2 * (b - lo)) / (f1 + f2)) as -> by (field; lra).
    apply div_nonneg; [|done].
    pose proof (Qmult_le_0_compat f1 (a - lo) Hf1 ltac:(lra)).
    pose proof (Qmult_le_0_compat f2 (b - lo) Hf2 ltac:(lra)). lra.
  - assert (0 <= hi - (f1 * a + f2 * b) / (f1 + f2)) as Hrest; [|lra].
    assert (hi - (f1 * a + f2 * b) / (f1 + f2)
            == (f1 * (hi - a) + f2 * (hi - b)) / (f1 + f2)) as -> by (field; lra).
    apply div_nonneg; [|done].
    pose proof (Qmult_le_0_compat f1 (hi - a) Hf1 ltac:(lra)).
    pose proof (Qmult_le_0_compat f2 (hi - b) Hf2 ltac:(lra)). lra.
Qed.
End Mean.

(** Between its two synthetic ends [m1] holds the secant slopes. *)
Lemma extended_middle (n : nat) (m : list Q) (j : nat) :
  length m = (n - 1)%nat → (2 ≤ j)%nat → (j < n + 1)%nat →
  extended n m !!! j = m !!! (j - 2)%nat.
Proof.
  intros Hm Hlo Hhi. unfold extended. cbv zeta.
  destruct j as [|[|j]]; [lia..|]. cbn [app].
  match goal with
  | |- (?u :: ?v :: ?l) !!! S (S j) = _ =>
      change ((u :: v :: l) !!! S (S j)) with (l !!! j)
  end.
  rewrite lookup_total_app_l by lia. f_equal. lia.
Qed.

(** Every derivative lies between the two extended slopes next to it. *)
Lemma derivative_between (x y : list Q) (s : spline) (top : Q) (i : nat) :
  fitted x y s top → (i < length x)%nat →
  Qmin (sp_m1 s !!! (i + 1)%nat) (sp_m1 s !!! (i + 2)%nat) <= sp_b s !!! i ∧
  sp_b s !!! i <= Qmax (sp_m1 s !!! (i + 1)%nat) (sp_m1 s !!! (i + 2)%nat).
Proof.
  intros Hs Hi.
  destruct (Qlt_le_dec (eps * top) (weight (sp_m1 s) i)) as [Hw|Hw].
  - rewrite (fitted_b_weighted _ _ _ _ Hs i Hi Hw).
    destruct (fitted_top_attained _ _ _ _ Hs) as (j & Hj & Htop).
    pose proof (weight_nonneg (sp_m1 s) j) as Hj0.
    apply mean_between; [apply gap_nonneg.. |].
    rewrite Htop in Hw. unfold eps, weight in Hw, Hj0 |- *. lra.
  - rewrite (fitted_b_default _ _ _ _ Hs i Hi) by lra.
    split; [apply Q.le_min_l | apply Q.le_max_l].
Qed.

(** X3: every derivative lies between the two extended slopes next to it,
    [m1[i+1]] and [m1[i+2]]; at an interior sample these are the secant
    slopes of the two adjoining segments, so the curve leaves the sample in a
    direction between the two chords that meet there. *)
Theorem derivative_between_slopes (x y : list Q) :
  valid x y →
  ∃ s, fit (length x) y (diff x) = Ok s ∧
    (∀ i, (i < length x)%nat →
       Qmin (sp_m1 s !!! (i + 1)%nat) (sp_m1 s !!! (i + 2)%nat) <= sp_b s !!! i ∧
       sp_b s !!! i <= Qmax (sp_m1 s !!! (i + 1)%nat) (sp_m1 s !!! (i + 2)%nat)) ∧
    ∀ i, (0 < i)%nat → (i < length x - 1)%nat →
       Qmin (slope x y (i - 1)) (slope x y i) <= sp_b s !!! i ∧
       sp_b s !!! i <= Qmax (slope x y (i - 1)) (slope x y i).
Proof.
  intros Hv. destruct (fit_ok x y Hv) as (s & top & Hfit & Hs).
  exists s. split; [done|]. split.
  - intros i Hi. by eapply derivative_between.
  - intros i Hlo Hhi.
    pose proof (derivative_between x y s top i Hs ltac:(lia)) as Hb.
    pose proof (fitted_m_length _ _ _ _ Hs) as Hm.
    rewrite (fitted_m1 _ _ _ _ Hs) in Hb.
    rewrite !extended_middle in Hb by lia.
    rewrite !(fitted_m _ _ _ _ Hs) in Hb by lia.
    unfold slope.
    replace (S (i - 1)) with i by lia.
    replace (i + 1 - 2)%nat with (i - 1)%nat in Hb by lia.
    replace (S (i - 1)) with i in Hb by lia.
    replace (i + 2 - 2)%nat with i in Hb by lia.
    exact Hb.
Qed.

Lemma derivative_between_slopes_witness :
  valid [0; 1; 2; 3] [0; 1; 0; 5] ∧
  ∃ s, fit 4 [0; 1; 0; 5] (diff [0; 1; 2; 3]) = Ok s ∧
    (∀ i, (i < 4)%nat →
       Qmin (sp_m1 s !!! (i + 1)%nat) (sp_m1 s !!! (i + 2)%nat) <= sp_b s !!! i ∧
       sp_b s !!! i <= Qmax (sp_m1 s !!! (i + 1)%nat) (sp_m1 s !!! (i + 2)%nat)) ∧
    ∀ i, (0 < i)%nat → (i < 4 - 1)%nat →
       Qmin (slope [0; 1; 2; 3] [0; 1; 0; 5] (i - 1)) (slope [0; 1; 2; 3] [0; 1; 0; 5] i)
       <= sp_b s !!! i ∧
       sp_b s !!! i
       <= Qmax (slope [0; 1; 2; 3] [0; 1; 0; 5] (i - 1))
               (slope [0; 1; 2; 3] [0; 1; 0; 5] i).
Proof.
  assert (valid [0; 1; 2; 3] [0; 1; 0; 5]) as Hv by (apply validb_spec; reflexivity).
  split; [exact Hv|].
  exact (derivative_between_slopes [0; 1; 2; 3] [0; 1; 0; 5] Hv).
Defined.

(** ** Further properties: collinear samples *)

Lemma extended_second (n : nat) (m : list Q) :
  extended n m !!! 1%nat = 2 * m !!! 0%nat - m !!! 1%nat.
Proof. reflexivity. Qed.

Lemma extended_before_last (n : nat) (m : list Q) :
  length m = (n - 1)%nat → (3 ≤ n)%nat →
  extended n m !!! (n + 1)%nat = 2 * m !!! (n - 2)%nat - m !!! (n - 3)%nat.
Proof.
  intros Hm Hn. unfold extended. cbv zeta.
  replace (n + 1)%nat with (S (S (n - 1))) by lia. cbn [app].
  match goal with
  | |- (?u :: ?v :: ?l) !!! S (S ?j) = _ =>
      change ((u :: v :: l) !!! S (S j)) with (l !!! j)
  end.
  rewrite lookup_total_app_r by lia.
  replace (n - 1 - length m)%nat with 0%nat by lia. reflexivity.
Qed.

Section Straight.
Variables (x y : list Q) (s : spline) (top : Q).
Hypothesis Hv : valid x y.
Hypothesis Hs : fitted x y s top.

(** Three equal extended slopes in a row make the segment between them a
    straight line. *)
Lemma straight_segment (i : nat) :
  (i < length x - 1)%nat →
  sp_m1 s !!! (i + 1)%nat == sp_m1 s !!! (i + 2)%nat →
  sp_m1 s !!! (i + 2)%nat == sp_m1 s !!! (i + 3)%nat →
  sp_b s !!! i == slope x y i ∧ sp_b s !!! S i == slope x y i ∧
  sp_c s !!! i == 0 ∧ sp_d s !!! i == 0.
Proof.
  intros Hi H12 H23.
  pose proof (fitted_m_length _ _ _ _ Hs) as Hm.
  assert (sp_m1 s !!! (i + 2)%nat = slope x y i) as Hmid.
  { rewrite (fitted_m1 _ _ _ _ Hs), extended_middle by lia.
    replace (i + 2 - 2)%nat with i by lia. by rewrite (fitted_m _ _ _ _ Hs). }
  pose proof (derivative_between x y s top i Hs ltac:(lia)) as [Hlo0 Hhi0].
  pose proof (derivative_between x y s top (S i) Hs ltac:(lia)) as [Hlo1 Hhi1].
  replace (S i + 1)%nat with (i + 2)%nat in * by lia.
  replace (S i + 2)%nat with (i + 3)%nat in * by lia.
  rewrite Hmid in *. set (sl := slope x y i) in *.
  assert (sp_b s !!! i == sl) as Hb0.
  { apply Qle_antisym.
    - eapply Qle_trans; [exact Hhi0|]. apply Q.max_lub; lra.
    - eapply Qle_trans; [|exact Hlo0]. apply Q.min_glb; lra. }
  assert (sp_b s !!! S i == sl) as Hb1.
  { apply Qle_antisym.
    - eapply Qle_trans; [exact Hhi1|]. apply Q.max_lub; lra.
    - eapply Qle_trans; [|exact Hlo1]. apply Q.min_glb; lra. }
  split; [done|]. split; [done|].
  pose proof (increasing_step x i (valid_increasing x y Hv) ltac:(lia)) as Hstep.
  rewrite (fitted_c _ _ _ _ Hs i Hi), (fitted_d _ _ _ _ Hs i Hi),
    (fitted_m _ _ _ _ Hs i Hi).
  fold (slope x y i). fold sl. split.
  - assert (3 * sl - 2 * sp_b s !!! i - sp_b s !!! S i == 0) as -> by lra.
    field. lra.
  - assert (sp_b s !!! i + sp_b s !!! S i - 2 * sl == 0) as -> by lra.
    field. lra.
Qed.

(** On a straight segment the value is that of the chord. *)
Lemma straight_value (i : nat) (q : Q) :
  (S i < length x)%nat → x !!! i <= q → q <= x !!! S i →
  sp_b s !!! i == slope x y i → sp_c s !!! i == 0 → sp_d s !!! i == 0 →
  horner x y (sp_b s) (sp_c s) (sp_d s) q == y !!! i + slope x y i * (q - x !!! i).
Proof.
  intros Hi Hlo Hhi Hb Hc Hd.
  rewrite (horner_on_segment x y s top i q Hv Hs Hi Hlo Hhi).
  rewrite Hb, Hc, Hd. unfold cubic. ring.
Qed.
End Straight.

(** X4: four collinear samples in a row give a straight line between the
    two middle ones.  If the secant slopes of segments [i-1], [i] and [i+1]
    are equal, then [b_i] and [b_(i+1)] are that slope, [c_i = d_i = 0], and
    every query in the segment returns the value of the chord. *)
Theorem straight_between_collinear_samples (x y : list Q) (i : nat) :
  valid x y → (0 < i)%nat → (i + 2 < length x)%nat →
  slope x y (i - 1) == slope x y i → slope x y i == slope x y (i + 1) →
  ∃ s, fit (length x) y (diff x) = Ok s ∧
    sp_b s !!! i == slope x y i ∧ sp_b s !!! S i == slope x y i ∧
    sp_c s !!! i == 0 ∧ sp_d s !!! i == 0 ∧
    ∀ q, x !!! i <= q → q <= x !!! S i →
      ∃ v, interp x y [q] = Ok [v] ∧ v == y !!! i + slope x y i * (q - x !!! i).
Proof.
  intros Hv Hlo Hhi Hleft Hright.
  destruct (fit_ok x y Hv) as (s & top & Hfit & Hs).
  pose proof (fitted_m_length _ _ _ _ Hs) as Hm.
  destruct (straight_segment x y s top Hv Hs i) as (Hb0 & Hb1 & Hc & Hd); [lia | | |].
  { rewrite (fitted_m1 _ _ _ _ Hs), !extended_middle by lia.
    rewrite !(fitted_m _ _ _ _ Hs) by lia.
    replace (i + 1 - 2)%nat with (i - 1)%nat by lia.
    replace (i + 2 - 2)%nat with i by lia. exact Hleft. }
  { rewrite (fitted_m1 _ _ _ _ Hs), !extended_middle by lia.
    rewrite !(fitted_m _ _ _ _ Hs) by lia.
    replace (i + 2 - 2)%nat with i by lia.
    replace (i + 3 - 2)%nat with (i + 1)%nat by lia. exact Hright. }
  exists s. do 5 (split; [done|]).
  intros q Hq0 Hq1.
  assert (in_domain x q) as Hdom.
  { destruct (Qlt_le_dec q (x !!! S i)) as [Hlt|Hge].
    - by destruct (segment_left_closed x y i q Hv ltac:(lia) Hq0 Hlt).
    - apply (in_domain_knot x y Hv q (S i)); [lia | lra]. }
  destruct (interp_ok x y [q] Hv ltac:(by repeat constructor))
    as (s' & top' & Hfit' & _ & Hrun).
  rewrite Hfit in Hfit'. injection Hfit' as <-.
  eexists. split; [exact Hrun|].
  apply (straight_value x y s top Hv Hs); [lia | done..].
Qed.

Lemma straight_between_collinear_samples_witness :
  valid [0; 1; 3; 4; 6; 7] [5; 0; 2; 3; 5; 0] ∧ (0 < 2)%nat ∧ (2 + 2 < 6)%nat ∧
  slope [0; 1; 3; 4; 6; 7] [5; 0; 2; 3; 5; 0] (2 - 1)
  == slope [0; 1; 3; 4; 6; 7] [5; 0; 2; 3; 5; 0] 2 ∧
  slope [0; 1; 3; 4; 6; 7] [5; 0; 2; 3; 5; 0] 2
  == slope [0; 1; 3; 4; 6; 7] [5; 0; 2; 3; 5; 0] (2 + 1) ∧
  ∃ s, fit 6 [5; 0; 2; 3; 5; 0] (diff [0; 1; 3; 4; 6; 7]) = Ok s ∧
    sp_b s !!! 2%nat == slope [0; 1; 3; 4; 6; 7] [5; 0; 2; 3; 5; 0] 2 ∧
    sp_b s !!! 3%nat == slope [0; 1; 3; 4; 6; 7] [5; 0; 2; 3; 5; 0] 2 ∧
    sp_c s !!! 2%nat == 0 ∧ sp_d s !!! 2%nat == 0 ∧
    ∀ q, [0; 1; 3; 4; 6; 7] !!! 2%nat <= q → q <= [0; 1; 3; 4; 6; 7] !!! 3%nat →
      ∃ v, interp [0; 1; 3; 4; 6; 7] [5; 0; 2; 3; 5; 0] [q] = Ok [v] ∧
           v == [5; 0; 2; 3; 5; 0] !!! 2%nat
                + slope [0; 1; 3; 4; 6; 7] [5; 0; 2; 3; 5; 0] 2
                  * (q - [0; 1; 3; 4; 6; 7] !!! 2%nat).
Proof.
  assert (valid [0; 1; 3; 4; 6; 7] [5; 0; 2; 3; 5; 0]) as Hv
    by (apply validb_spec; reflexivity).
  split; [exact Hv|]. split; [lia|]. split; [lia|].
  split; [by vm_compute|]. split; [by vm_compute|].
  apply (straight_between_collinear_samples _ _ 2 Hv);
    [lia | cbn; lia | by vm_compute | by vm_compute].
Defined.

(** X5: three collinear samples at either end give a straight end segment:
    the extrapolated slopes continue the common slope, so the two derivatives
    of the end segment are that slope and [c = d = 0] there. *)
Theorem straight_end_segments (x y : list Q) :
  valid x y →
  ∃ s, fit (length x) y (diff x) = Ok s ∧
    (slope x y 0 == slope x y 1 →
     sp_b s !!! 0%nat == slope x y 0 ∧ sp_b s !!! 1%nat == slope x y 0 ∧
     sp_c s !!! 0%nat == 0 ∧ sp_d s !!! 0%nat == 0) ∧
    (let k := (length x - 2)%nat in
     slope x y (k - 1) == slope x y k →
     sp_b s !!! k == slope x y k ∧ sp_b s !!! S k == slope x y k ∧
     sp_c s !!! k == 0 ∧ sp_d s !!! k == 0).
Proof.
  intros Hv. pose proof (valid_size x y Hv) as Hn.
  destruct (fit_ok x y Hv) as (s & top & Hfit & Hs).
  pose proof (fitted_m_length _ _ _ _ Hs) as Hm.
  exists s. split; [done|]. split.
  - intros H01. apply (straight_segment x y s top Hv Hs 0); [lia | |].
    + rewrite (fitted_m1 _ _ _ _ Hs), extended_second, (extended_middle _ _ 2) by lia.
      rewrite !(fitted_m _ _ _ _ Hs) by lia.
      unfold slope in H01. cbn [Nat.sub]. lra.
    + rewrite (fitted_m1 _ _ _ _ Hs), (extended_middle _ _ 2),
        (extended_middle _ _ 3) by lia.
      rewrite !(fitted_m _ _ _ _ Hs) by lia. exact H01.
  - cbv zeta. intros Hlast.
    apply (straight_segment x y s top Hv Hs (length x - 2)); [lia | |].
    + rewrite (fitted_m1 _ _ _ _ Hs), !extended_middle by lia.
      rewrite !(fitted_m _ _ _ _ Hs) by lia.
      replace (length x - 2 + 1 - 2)%nat with (length x - 2 - 1)%nat by lia.
      replace (length x - 2 + 2 - 2)%nat with (length x - 2)%nat by lia.
      exact Hlast.
    + replace (length x - 2 + 3)%nat with (length x + 1)%nat by lia.
      rewrite (fitted_m1 _ _ _ _ Hs), extended_before_last, extended_middle by lia.
      rewrite !(fitted_m _ _ _ _ Hs) by lia.
      replace (length x - 2 + 2 - 2)%nat with (length x - 2)%nat by lia.
      replace (length x - 3)%nat with (length x - 2 - 1)%nat by lia.
      unfold slope in Hlast.
      replace (S (length x - 2 - 1)) with (length x - 2)%nat in * by lia. lra.
Qed.

Lemma straight_end_segments_witness :
  valid [0; 1; 3; 4] [0; 1; 3; 0] ∧
  ∃ s, fit 4 [0; 1; 3; 0] (diff [0; 1; 3; 4]) = Ok s ∧
    (slope [0; 1; 3; 4] [0; 1; 3; 0] 0 == slope [0; 1; 3; 4] [0; 1; 3; 0] 1 →
     sp_b s !!! 0%nat == slope [0; 1; 3; 4] [0; 1; 3; 0] 0 ∧
     sp_b s !!! 1%nat == slope [0; 1; 3; 4] [0; 1; 3; 0] 0 ∧
     sp_c s !!! 0%nat == 0 ∧ sp_d s !!! 0%nat == 0) ∧
    (let k := (4 - 2)%nat in
     slope [0; 1; 3; 4] [0; 1; 3; 0] (k - 1) == slope [0; 1; 3; 4] [0; 1; 3; 0] k →
     sp_b s !!! k == slope [0; 1; 3; 4] [0; 1; 3; 0] k ∧
     sp_b s !!! S k == slope [0; 1; 3; 4] [0; 1; 3; 0] k ∧
     sp_c s !!! k == 0 ∧ sp_d s !!! k == 0).
Proof.
  assert (valid [0; 1; 3; 4] [0; 1; 3; 0]) as Hv by (apply validb_spec; reflexivity).
  split; [exact Hv|]. exact (straight_end_segments [0; 1; 3; 4] [0; 1; 3; 0] Hv).
Defined.

(** In the samples of the witness the first three are collinear. *)
Example collinear_start_example :
  slope [0; 1; 3; 4] [0; 1; 3; 0] 0 == slope [0; 1; 3; 4] [0; 1; 3; 0] 1.
Proof. by vm_compute. Qed.

(** ** Further properties: slopes in arithmetic progression *)

Lemma extended_first (n : nat) (m : list Q) :
  extended n m !!! 0%nat = 2 * (2 * m !!! 0%nat - m !!! 1%nat) - m !!! 0%nat.
Proof. reflexivity. Qed.

Lemma extended_last (n : nat) (m : list Q) :
  length m = (n - 1)%nat → (3 ≤ n)%nat →
  extended n m !!! (n + 2)%nat
  = 2 * (2 * m !!! (n - 2)%nat - m !!! (n - 3)%nat) - m !!! (n - 2)%nat.
Proof.
  intros Hm Hn. unfold extended. cbv zeta.
  replace (n + 2)%nat with (S (S n)) by lia. cbn [app].
  match goal with
  | |- (?u :: ?v :: ?l) !!! S (S ?j) = _ =>
      change ((u :: v :: l) !!! S (S j)) with (l !!! j)
  end.
  rewrite lookup_total_app_r by lia.
  replace (n - length m)%nat with 1%nat by lia. reflexivity.
Qed.

Section Progression.
Variables (n : nat) (m : list Q) (h : Q).
Hypothesis Hn : (3 ≤ n)%nat.
Hypothesis Hm : length m = (n - 1)%nat.
Hypothesis Hstep : ∀ i, (i + 2 < n)%nat → m !!! S i - m !!! i == h.

(** The extrapolated slopes continue the progression. *)
Lemma extended_step (j : nat) :
  (j < n + 2)%nat → extended n m !!! S j - extended n m !!! j == h.
Proof.
  intros Hj.
  pose proof (Hstep 0 ltac:(lia)) as Hfirst.
  pose proof (Hstep (n - 3) ltac:(lia)) as Hlast.
  replace (S (n - 3)) with (n - 2)%nat in Hlast by lia.
  destruct (decide (j = 0%nat)) as [->|]; [|destruct (decide (j = 1%nat)) as [->|]].
  - rewrite extended_second, extended_first. lra.
  - rewrite extended_second, (extended_middle n m 2) by lia. cbn [Nat.sub]. lra.
  - destruct (decide (j < n)%nat); [|destruct (decide (j = n)) as [->|]].
    + rewrite !extended_middle by lia.
      pose proof (Hstep (j - 2) ltac:(lia)) as Hj2.
      by replace (S j - 2)%nat with (S (j - 2)) by lia.
    + replace (S n) with (n + 1)%nat by lia.
      rewrite extended_before_last, extended_middle by lia. lra.
    + replace (S j) with (n + 2)%nat by lia. replace j with (n + 1)%nat by lia.
      rewrite extended_last, extended_before_last by lia. lra.
Qed.

Lemma gap_step (j : nat) : (j < n + 2)%nat → gap (extended n m) j == Qabs h.
Proof. intros Hj. unfold gap. by rewrite extended_step. Qed.
End Progression.

(** With slopes in arithmetic progression every derivative is the mean of
    its two neighbouring extended slopes. *)
Lemma progression_derivatives (x y : list Q) (s : spline) (top h : Q) :
  valid x y → fitted x y s top →
  (∀ i, (i + 2 < length x)%nat → slope x y (S i) - slope x y i == h) →
  ¬ h == 0 →
  (∀ i, (i < length x)%nat →
     sp_b s !!! i == (sp_m1 s !!! (i + 1)%nat + sp_m1 s !!! (i + 2)%nat) / 2) ∧
  (∀ i, (i < length x - 1)%nat → sp_b s !!! i == slope x y i - h / 2) ∧
  sp_b s !!! (length x - 1)%nat == slope x y (length x - 2) + h / 2.
Proof.
  intros Hv Hs Hprog Hh. pose proof (valid_size x y Hv) as Hn.
  pose proof (fitted_m_length _ _ _ _ Hs) as Hm.
  assert (∀ i, (i + 2 < length x)%nat → sp_m s !!! S i - sp_m s !!! i == h) as Hstep.
  { intros i Hi. rewrite !(fitted_m _ _ _ _ Hs) by lia. by apply Hprog. }
  assert (0 < Qabs h) as Hpos.
  { destruct (Qlt_le_dec 0 (Qabs h)); [done|]. destruct Hh.
    pose proof (Qle_Qabs h). pose proof (Qle_Qabs (- h)) as Hneg.
    rewrite Qabs_opp in Hneg. lra. }
  assert (∀ j, (j < length x + 2)%nat → gap (sp_m1 s) j == Qabs h) as Hgap.
  { intros j Hj. rewrite (fitted_m1 _ _ _ _ Hs).
    by apply (gap_step (length x) (sp_m s) h). }
  assert (∀ j, (j < length x + 2)%nat → sp_m1 s !!! S j - sp_m1 s !!! j == h) as Hext.
  { intros j Hj. rewrite (fitted_m1 _ _ _ _ Hs).
    by apply (extended_step (length x) (sp_m s) h). }
  assert (∀ i, (i < length x)%nat → weight (sp_m1 s) i == Qabs h + Qabs h) as Hw.
  { intros i Hi. unfold weight. by rewrite !Hgap by lia. }
  assert (top == Qabs h + Qabs h) as Htop.
  { destruct (fitted_top_attained _ _ _ _ Hs) as (j & Hj & ->). by apply Hw. }
  assert (∀ i, (i < length x)%nat →
            sp_b s !!! i == (sp_m1 s !!! (i + 1)%nat + sp_m1 s !!! (i + 2)%nat) / 2)
    as Hmean.
  { intros i Hi. rewrite (fitted_b_weighted _ _ _ _ Hs i Hi).
    - unfold weight. rewrite !Hgap by lia. field. lra.
    - rewrite (Hw i Hi), Htop. unfold eps. lra. }
  split; [done|]. split.
  - intros i Hi. rewrite (Hmean i) by lia.
    pose proof (Hext (i + 1)%nat ltac:(lia)) as Hd.
    replace (S (i + 1)) with (i + 2)%nat in Hd by lia.
    assert (sp_m1 s !!! (i + 2)%nat = slope x y i) as Hmid.
    { rewrite (fitted_m1 _ _ _ _ Hs), extended_middle by lia.
      replace (i + 2 - 2)%nat with i by lia. by rewrite (fitted_m _ _ _ _ Hs). }
    rewrite Hmid in *.
    assert (sp_m1 s !!! (i + 1)%nat == slope x y i - h) as -> by lra.
    field.
  - rewrite (Hmean (length x - 1)%nat) by lia.
    pose proof (Hext (length x - 1 + 1)%nat ltac:(lia)) as Hd.
    replace (S (length x - 1 + 1)) with (length x - 1 + 2)%nat in Hd by lia.
    assert (sp_m1 s !!! (length x - 1 + 1)%nat = slope x y (length x - 2)) as Hmid.
    { rewrite (fitted_m1 _ _ _ _ Hs), extended_middle by lia.
      replace (length x - 1 + 1 - 2)%nat with (length x - 2)%nat by lia.
      by rewrite (fitted_m _ _ _ _ Hs) by lia. }
    rewrite Hmid in *.
    assert (sp_m1 s !!! (length x - 1 + 2)%nat == slope x y (length x - 2) + h)
      as -> by lra.
    field.
Qed.

(** X6: when the secant slopes form an arithmetic progression with a
    non-zero difference [h] (which is always so for three samples that are
    not collinear), all weights are equal, every point takes the weighted
    branch, and each derivative is the plain mean of its two neighbouring
    extended slopes: [b_i = m_i - h/2], and [b_(n-1) = m_(n-2) + h/2]. *)
Theorem progression_gives_mean (x y : list Q) (h : Q) :
  valid x y →
  (∀ i, (i + 2 < length x)%nat → slope x y (S i) - slope x y i == h) →
  ¬ h == 0 →
  ∃ s, fit (length x) y (diff x) = Ok s ∧
    (∀ i, (i < length x)%nat →
       sp_b s !!! i == (sp_m1 s !!! (i + 1)%nat + sp_m1 s !!! (i + 2)%nat) / 2) ∧
    (∀ i, (i < length x - 1)%nat → sp_b s !!! i == slope x y i - h / 2) ∧
    sp_b s !!! (length x - 1)%nat == slope x y (length x - 2) + h / 2.
Proof.
  intros Hv Hprog Hh.
  destruct (fit_ok x y Hv) as (s & top & Hfit & Hs).
  exists s. split; [done|]. by eapply progression_derivatives.
Qed.

Lemma progression_gives_mean_witness :
  valid [0; 1; 2] [0; 0; 1] ∧
  (∀ i, (i + 2 < 3)%nat →
        slope [0; 1; 2] [0; 0; 1] (S i) - slope [0; 1; 2] [0; 0; 1] i == 1) ∧
  ¬ 1 == 0 ∧
  ∃ s, fit 3 [0; 0; 1] (diff [0; 1; 2]) = Ok s ∧
    (∀ i, (i < 3)%nat →
       sp_b s !!! i == (sp_m1 s !!! (i + 1)%nat + sp_m1 s !!! (i + 2)%nat) / 2) ∧
    (∀ i, (i < 3 - 1)%nat → sp_b s !!! i == slope [0; 1; 2] [0; 0; 1] i - 1 / 2) ∧
    sp_b s !!! (3 - 1)%nat == slope [0; 1; 2] [0; 0; 1] (3 - 2) + 1 / 2.
Proof.
  assert (valid [0; 1; 2] [0; 0; 1]) as Hv by (apply validb_spec; reflexivity).
  assert (∀ i, (i + 2 < 3)%nat →
            slope [0; 1; 2] [0; 0; 1] (S i) - slope [0; 1; 2] [0; 0; 1] i == 1) as Hp.
  { intros i Hi. assert (i = 0%nat) as -> by lia. by vm_compute. }
  assert (¬ 1 == 0) as Hh by (by vm_compute).
  split; [exact Hv|]. split; [exact Hp|]. split; [exact Hh|].
  exact (progression_gives_mean [0; 1; 2] [0; 0; 1] 1 Hv Hp Hh).
Defined.

(** ** Further properties: parabolas on a uniform grid *)

Section Parabola.
Variables (x y : list Q) (step p r c0 : Q).
Hypothesis Hv : valid x y.
Hypothesis Hgrid : ∀ i, (S i < length x)%nat → x !!! S i - x !!! i == step.
Hypothesis Hy : ∀ i, (i < length x)%nat →
  y !!! i == p * x !!! i ^ 2 + r * x !!! i + c0.

Lemma parabola_slope (i : nat) :
  (S i < length x)%nat → slope x y i == p * (x !!! i + x !!! S i) + r.
Proof.
  intros Hi. unfold slope. rewrite !Hy by lia.
  pose proof (increasing_step x i (valid_increasing x y Hv) Hi). field. lra.
Qed.

Lemma parabola_progression (i : nat) :
  (i + 2 < length x)%nat → slope x y (S i) - slope x y i == 2 * p * step.
Proof.
  intros Hi. rewrite !parabola_slope by lia.
  pose proof (Hgrid i ltac:(lia)) as H0. pose proof (Hgrid (S i) ltac:(lia)) as H1.
  assert (x !!! S (S i) == x !!! i + 2 * step) as -> by lra.
  assert (x !!! S i == x !!! i + step) as -> by lra. ring.
Qed.

Lemma step_positive : 0 < step.
Proof.
  pose proof (valid_size x y Hv).
  pose proof (increasing_step x 0 (valid_increasing x y Hv) ltac:(lia)).
  pose proof (Hgrid 0 ltac:(lia)). lra.
Qed.

Hypothesis Hp : ¬ p == 0.
Variables (s : spline) (top : Q).
Hypothesis Hs : fitted x y s top.

(** The derivative estimates are the derivatives of the parabola. *)
Lemma parabola_derivative (i : nat) :
  (i < length x)%nat → sp_b s !!! i == 2 * p * x !!! i + r.
Proof.
  intros Hi. pose proof (valid_size x y Hv) as Hn. pose proof step_positive as Hpos.
  destruct (progression_derivatives x y s top (2 * p * step) Hv Hs)
    as (_ & Hinner & Hend).
  { intros j Hj. by apply parabola_progression. }
  { intros Hz. apply Hp.
    destruct (Qmult_integral _ _ Hz) as [Hz'|Hz']; [|lra].
    destruct (Qmult_integral _ _ Hz') as [?|?]; [lra | done]. }
  destruct (decide (i < length x - 1)%nat) as [Hlt|Hge].
  - rewrite (Hinner i Hlt), parabola_slope by lia.
    pose proof (Hgrid i ltac:(lia)) as Hg.
    assert (x !!! S i == x !!! i + step) as -> by lra. field.
  - replace i with (length x - 1)%nat by lia.
    rewrite Hend, parabola_slope by lia.
    replace (S (length x - 2)) with (length x - 1)%nat by lia.
    pose proof (Hgrid (length x - 2)%nat ltac:(lia)) as Hg.
    replace (S (length x - 2)) with (length x - 1)%nat in Hg by lia.
    assert (x !!! (length x - 2)%nat == x !!! (length x - 1)%nat - step) as -> by lra.
    field.
Qed.

Lemma parabola_coefficients (i : nat) :
  (i < length x - 1)%nat → sp_c s !!! i == p ∧ sp_d s !!! i == 0.
Proof.
  intros Hi.
  pose proof (increasing_step x i (valid_increasing x y Hv) ltac:(lia)) as Hinc.
  rewrite (fitted_c _ _ _ _ Hs i Hi), (fitted_d _ _ _ _ Hs i Hi),
    (fitted_m _ _ _ _ Hs i Hi).
  fold (slope x y i).
  rewrite parabola_slope, !parabola_derivative by lia.
  split; field; lra.
Qed.

Lemma parabola_value (q : Q) :
  in_domain x q →
  horner x y (sp_b s) (sp_c s) (sp_d s) q == p * q ^ 2 + r * q + c0.
Proof.
  intros Hq. destruct (segment_spec x y Hv q Hq) as [Hk _].
  unfold horner. cbv zeta. set (k := Z.to_nat (segment x q)).
  destruct (parabola_coefficients k ltac:(lia)) as [Hc Hd].
  rewrite Hc, Hd, (parabola_derivative k), (Hy k) by lia. ring.
Qed.
End Parabola.

(** X7: the method is exact on parabolas sampled on a uniform grid.  If the
    abscissas are equally spaced and the ordinates are the values of
    [p t^2 + r t + c0] with [p <> 0], then every derivative is the derivative
    [2 p x_i + r] of the parabola, [c_i = p] and [d_i = 0] on every segment,
    and every query inside the domain returns the value of the parabola. *)
Theorem exact_on_uniform_parabola (x y : list Q) (step p r c0 : Q) :
  valid x y →
  (∀ i, (S i < length x)%nat → x !!! S i - x !!! i == step) →
  (∀ i, (i < length x)%nat → y !!! i == p * x !!! i ^ 2 + r * x !!! i + c0) →
  ¬ p == 0 →
  ∃ s, fit (length x) y (diff x) = Ok s ∧
    (∀ i, (i < length x)%nat → sp_b s !!! i == 2 * p * x !!! i + r) ∧
    (∀ i, (i < length x - 1)%nat → sp_c s !!! i == p ∧ sp_d s !!! i == 0) ∧
    ∀ xi, Forall (in_domain x) xi →
      ∃ out, interp x y xi = Ok out ∧
        ∀ j q, xi !! j = Some q →
          ∃ v, out !! j = Some v ∧ v == p * q ^ 2 + r * q + c0.
Proof.
  intros Hv Hgrid Hy Hp.
  destruct (fit_ok x y Hv) as (s & top & Hfit & Hs).
  exists s. split; [done|]. split; [|split].
  - intros i Hi. by eapply parabola_derivative.
  - intros i Hi. by eapply parabola_coefficients.
  - intros xi Hxi.
    destruct (interp_ok x y xi Hv Hxi) as (s' & top' & Hfit' & _ & Hrun).
    rewrite Hfit in Hfit'. injection Hfit' as <-.
    eexists. split; [exact Hrun|].
    intros j q Hj. eexists. split; [by rewrite list_lookup_fmap, Hj|].
    eapply parabola_value; [done.. |]. by eapply Forall_lookup_1.
Qed.

Lemma exact_on_uniform_parabola_witness :
  valid [0; 1; 2] [0; 0; 1] ∧
  (∀ i, (S i < 3)%nat → [0; 1; 2] !!! S i - [0; 1; 2] !!! i == 1) ∧
  (∀ i, (i < 3)%nat →
     [0; 0; 1] !!! i == (1 # 2) * [0; 1; 2] !!! i ^ 2 + (-1 # 2) * [0; 1; 2] !!! i + 0) ∧
  ¬ (1 # 2) == 0 ∧
  ∃ s, fit 3 [0; 0; 1] (diff [0; 1; 2]) = Ok s ∧
    (∀ i, (i < 3)%nat → sp_b s !!! i == 2 * (1 # 2) * [0; 1; 2] !!! i + (-1 # 2)) ∧
    (∀ i, (i < 3 - 1)%nat → sp_c s !!! i == 1 # 2 ∧ sp_d s !!! i == 0) ∧
    ∀ xi, Forall (in_domain [0; 1; 2]) xi →
      ∃ out, interp [0; 1; 2] [0; 0; 1] xi = Ok out ∧
        ∀ j q, xi !! j = Some q →
          ∃ v, out !! j = Some v ∧ v == (1 # 2) * q ^ 2 + (-1 # 2) * q + 0.
Proof.
  assert (valid [0; 1; 2] [0; 0; 1]) as Hv by (apply validb_spec; reflexivity).
  assert (∀ i, (S i < 3)%nat → [0; 1; 2] !!! S i - [0; 1; 2] !!! i == 1) as Hgrid.
  { intros [|[|i]] Hi; [by vm_compute | by vm_compute | lia]. }
  assert (∀ i, (i < 3)%nat →
            [0; 0; 1] !!! i
            == (1 # 2) * [0; 1; 2] !!! i ^ 2 + (-1 # 2) * [0; 1; 2] !!! i + 0) as Hy.
  { intros [|[|[|i]]] Hi; [by vm_compute | by vm_compute | by vm_compute | lia]. }
  assert (¬ (1 # 2) == 0) as Hp by (by vm_compute).
  split; [exact Hv|]. split; [exact Hgrid|]. split; [exact Hy|]. split; [exact Hp|].
  exact (exact_on_uniform_parabola [0; 1; 2] [0; 0; 1] 1 (1 # 2) (-1 # 2) 0
           Hv Hgrid Hy Hp).
Defined.

(** ** Further properties: the names of the module *)

(** X8: whatever the two imports of the extension do, every name listed in
    [__all__] is bound in the module; [interpolate_py] is listed, and bound to
    the Python implementation, exactly when the extension was found (in the
    package first, else on the path); [interpolate] is then the function of
    the extension, and otherwise the Python implementation, with one
    warning. *)
Theorem module_exports_are_bound (in_package on_path : bool) :
  let loaded := load_module in_package on_path in
  Forall (λ name, is_Some (namespace loaded !! name)) (all_names loaded) ∧
  ("interpolate_py" ∈ all_names loaded ↔ in_package || on_path = true) ∧
  namespace loaded !! "interpolate_py"
  = (if in_package || on_path then Some PythonInterpolate else None) ∧
  namespace loaded !! "interpolate"
  = Some (if in_package then ExtensionInterpolate true
          else if on_path then ExtensionInterpolate false
          else PythonInterpolate) ∧
  (warnings loaded = [] ↔ in_package || on_path = true).
Proof.
  assert (∀ o : object, is_Some (Some o)) as Hsome by (intros o; by exists o).
  destruct in_package, on_path; cbv zeta; unfold load_module;
    cbn [namespace all_names warnings orb app];
    (split; [repeat constructor; vm_compute; apply Hsome|]);
    (split; [rewrite !elem_of_cons, elem_of_nil;
             first [ by split; [|do 2 right; left]
                   | split; [intros [?|[?|?]]; done | done] ] |]);
    (split; [by vm_compute|]); (split; [by vm_compute|]);
    split; done.
Qed.
